(** * zk2: the hash-preimage membership circuit and its input builders

    A shallow embedding of [zk2/hash_preimage.circom] (templates
    [HashListCheckInternal] and [Main], with the circomlib comparators it
    instantiates) and of the two Node drivers that build its input
    ([get_input.js], [get_input_with_others.js]), with [get_hash.js] and the
    two shell scripts that run the drivers and hand their output to the
    witness generator ([prove.sh], [prove_with_list.sh]).

    A circom template denotes two things at once:
    - a witness computation: every [<==] and [<--] assigns a signal, every
      [===] is asserted while the witness is computed;
    - a constraint system: every [<==] and [===] contributes one equation
      that a valid assignment of the signals has to satisfy.
    Both readings are given for each template, the first as a function into
    an error monad, the second as the list of equations evaluated under an
    assignment.

    Field elements are [Zmod p], integers kept in canonical form modulo [p];
    the templates are generic in [p] and in the list size [n], and are
    instantiated at the BN254 scalar field and [n = 10].  Signal arrays are
    lists assigned cell by cell, a cell not yet assigned holding 0. *)

From Stdlib Require Import ZArith Znumtheory Lia Ascii String.
From Stdlib Require Import Zmod.Zmod Zmod.Zstar.
From stdpp Require Import base decidable option list strings pretty.

#[local] Open Scope Z_scope.

(** ** Outcome of a witness computation *)

(** The generated witness calculator aborts with an "Assert Failed" error
    naming the template when a [===] does not hold; the error is recorded
    with the text of the failed constraint. *)
Inductive error : Type :=
  | AssertFailed (template : string) (failed : string).

Inductive result (A : Type) : Type :=
  | Ok (a : A)
  | Err (e : error).
Arguments Ok {A} a.
Arguments Err {A} e.

#[global] Instance result_ret : MRet result := fun _ a => Ok a.
#[global] Instance result_bind : MBind result := fun _ _ f x =>
  match x with
  | Ok a => f a
  | Err e => Err e
  end.

Definition assert (b : bool) (template failed : string) : result unit :=
  if b then Ok tt else Err (AssertFailed template failed).

(** The specification's [UnsatisfiableWitness]: synthesis stopped on a
    constraint that the computed values do not satisfy. *)
Definition UnsatisfiableWitness {A} (x : result A) : Prop :=
  exists template failed, x = Err (AssertFailed template failed).

(** [for (var i = i0; i < i0 + count; i++) { body }], threading the signals
    the body assigns. *)
Fixpoint for_loop {S : Type} (i count : nat)
    (body : nat -> S -> result S) (s : S) : result S :=
  match count with
  | O => Ok s
  | Datatypes.S k => s' ← body i s; for_loop (Datatypes.S i) k body s'
  end.

(** ** The scalar field *)

(** The circuit is compiled for circom's default prime, the order of the
    scalar field of the curve BN254 ("bn128"). *)
Definition bn128 : Z :=
  21888242871839275222246405745257275088548364400416034343698204186575808495617.

(** Primality is established by certificates that are checked by
    computation: trial division for small numbers, and above them
    Pocklington's criterion. *)

(** [n] has no divisor [k] with [d <= k] and [k * k <= n]. *)
Fixpoint trial_division (fuel : nat) (n d : Z) : bool :=
  match fuel with
  | O => false
  | S fuel' =>
      if n <? d * d then true
      else if n mod d =? 0 then false
      else trial_division fuel' n (d + 1)
  end.

Definition prime_by_trial (n : Z) : bool :=
  (1 <? n) && trial_division (Z.to_nat (Z.sqrt n)) n 2.

(** One entry of a Pocklington certificate for [N]: an element [t] of
    order [q] modulo every prime factor of [N], that is [t^q = 1] modulo
    [N] with [t - 1] coprime to [N].  (For a prime [q] dividing [N - 1] such
    a [t] is [a^((N-1)/q)] for a suitable base [a].) *)
Definition pocklington_step (N : Z) (qt : Z * Z) : bool :=
  let '(q, t) := qt in
  Zmod.eqb (Zmod.pow (Zmod.of_Z N t) q) (Zmod.of_Z N 1)
  && (Z.gcd (t - 1) N =? 1).

(** The product of the [q], checking on the way that each is coprime to the
    product of those after it. *)
Fixpoint coprime_product (qs : list Z) : option Z :=
  match qs with
  | [] => Some 1
  | q :: qs' =>
      match coprime_product qs' with
      | Some F => if Z.gcd q F =? 1 then Some (q * F) else None
      | None => None
      end
  end.

Definition pocklington (N : Z) (cert : list (Z * Z)) : bool :=
  (1 <? N)
  && forallb (pocklington_step N) cert
  && match coprime_product (fst <$> cert) with
     | Some F => N <? F * F
     | None => false
     end.

(** The certificate of the field's prime: elements of order [q] for primes
    [q] dividing [bn128 - 1] whose product exceeds its square root. *)
Definition bn128_certificate : list (Z * Z) :=
  [(13, 20846111736645777009767703653665533493788639406277865704073555848150445038125);
   (29, 2311681098533763473416896062848657696496278469729448718376354367453537275826);
   (983, 7126879685284399999585885404354813824736962529068896379753601470480697959896);
   (11003, 2359631316250983314861130673654602926021363809688312583465277785189831415697);
   (237073, 19162091871357529255726910181099886223371662303420150697274883840274314362093);
   (405928799, 14222862425608002768327293780974001985325119916805696672186700023306367139382);
   (1670836401704629, 15379204794002667769298530452756604474647348591674452342013272253614090326003)].

Section Circuit.

(** The modulus of the field the circuit is compiled for. *)
Context {p : Z}.

Abbreviation F := (Zmod p).

(** circomlib's [Poseidon(nInputs)]: the hash is an opaque function of the
    field, [out] computed from [inputs]. *)
Variable Poseidon : list F -> F.

#[global] Instance F_inhabited : Inhabited F := populate Zmod.zero.
#[global] Instance F_eq_dec : EqDecision F.
Proof.
  intros x y. destruct (Zmod.eqb x y) eqn:E.
  - left. apply Zmod.eqb_eq, E.
  - right. intros ->. rewrite Zmod.eqb_refl in E. discriminate.
Defined.

(** The constant [i] of a loop, as a field element. *)
Definition const (i : nat) : F := Zmod.of_Z p (Z.of_nat i).

(** ** Constraints *)

(** An equation [lhs === rhs], both sides evaluated under an assignment. *)
Definition constraint : Type := F * F.

Definition holds (c : constraint) : bool := Zmod.eqb (fst c) (snd c).

Definition all_hold (cs : list constraint) : bool := forallb holds cs.

(** ** circomlib comparators *)

(** Modelled from the spec: circomlib's [comparators.circom] is included by
    the circuit but is not among the repository's sources.  [IsZero] is the
    inverse-hint equality test of the design notes: the hint [inv] is the
    field inverse when [in] is not zero and 0 otherwise, [out] is
    [-in*inv + 1] and [in*out === 0] forces [out] to 0 on a nonzero [in]. *)
Record IsZero_signals : Type := {
  isz_in : F;
  isz_out : F;
  isz_inv : F;
}.

Definition IsZero (in_ : F) : result IsZero_signals :=
  (* inv <-- in!=0 ? 1/in : 0; *)
  let inv := if negb (Zmod.eqb in_ 0%Zmod) then Zmod.mdiv 1%Zmod in_ else 0%Zmod in
  (* out <== -in*inv +1; *)
  let out := (- in_ * inv + 1)%Zmod in
  (* in*out === 0; *)
  _ ← assert (Zmod.eqb (in_ * out)%Zmod 0%Zmod) "IsZero" "in*out === 0";
  Ok {| isz_in := in_; isz_out := out; isz_inv := inv |}.

Definition IsZero_constraints (z : IsZero_signals) : list constraint :=
  [ (isz_out z, (- isz_in z * isz_inv z + 1)%Zmod);
    ((isz_in z * isz_out z)%Zmod, 0%Zmod) ].

(** Modelled from the spec: the hint of [IsZero] is assigned by [<--], which
    gives it a value and no constraint.  [IsZero_hint z] says that the hint
    of [z] has the value the assignment [inv <-- in!=0 ? 1/in : 0]
    computes from [in]. *)
Definition IsZero_hint (z : IsZero_signals) : bool :=
  Zmod.eqb (isz_inv z)
    (if negb (Zmod.eqb (isz_in z) 0%Zmod)
     then Zmod.mdiv 1%Zmod (isz_in z) else 0%Zmod).

(** Modelled from the spec: circomlib's [IsEqual], the equality test on
    [in[0]] and [in[1]]: an [IsZero] on their difference. *)
Record IsEqual_signals : Type := {
  ieq_in0 : F;
  ieq_in1 : F;
  ieq_out : F;
  ieq_isz : IsZero_signals;
}.

Definition IsEqual (in0 in1 : F) : result IsEqual_signals :=
  (* in[1] - in[0] ==> isz.in; *)
  isz ← IsZero (in1 - in0)%Zmod;
  (* isz.out ==> out; *)
  Ok {| ieq_in0 := in0; ieq_in1 := in1; ieq_out := isz_out isz; ieq_isz := isz |}.

Definition IsEqual_constraints (e : IsEqual_signals) : list constraint :=
  [ (isz_in (ieq_isz e), (ieq_in1 e - ieq_in0 e)%Zmod) ]
  ++ IsZero_constraints (ieq_isz e)
  ++ [ (ieq_out e, isz_out (ieq_isz e)) ].

#[global] Instance IsEqual_signals_inhabited : Inhabited IsEqual_signals :=
  populate {| ieq_in0 := 0%Zmod; ieq_in1 := 0%Zmod; ieq_out := 0%Zmod;
              ieq_isz := {| isz_in := 0%Zmod; isz_out := 0%Zmod; isz_inv := 0%Zmod |} |}.

(** ** HashListCheckInternal(n) *)

Record Poseidon_signals : Type := {
  pos_inputs : list F;
  pos_out : F;
}.

Definition Poseidon_component (inputs : list F) : result Poseidon_signals :=
  Ok {| pos_inputs := inputs; pos_out := Poseidon inputs |}.

Definition Poseidon_constraints (h : Poseidon_signals) : list constraint :=
  [ (pos_out h, Poseidon (pos_inputs h)) ].

Record HashListCheckInternal_signals : Type := {
  c_r : F;
  c_j : F;
  c_hashes : list F;
  c_ok : F;
  c_h : Poseidon_signals;
  c_hr : F;
  c_sel : list F;
  c_eq : list IsEqual_signals;
  c_sumSel : list F;
  c_selectedHash : list F;
}.

(** Lines 23-31: the selectors, one [IsEqual] per position.
<<
    signal sel[n];
    component eq[n];
    for (var i = 0; i < n; i++) {
        eq[i] = IsEqual();
        eq[i].in[0] <== j;
        eq[i].in[1] <== i;
        sel[i] <== eq[i].out;
    }
>> *)
Definition selectors (n : nat) (j : F) : result (list F * list IsEqual_signals) :=
  for_loop 0 n
    (fun i '(sel, eq) =>
       e ← IsEqual j (const i);
       Ok (<[i := ieq_out e]> sel, <[i := e]> eq))
    (replicate n 0%Zmod, replicate n inhabitant).

(** Lines 34-38: the running sum of the selectors.
<<
    signal sumSel[n+1];
    sumSel[0] <== 0;
    for (var i = 0; i < n; i++) {
        sumSel[i+1] <== sumSel[i] + sel[i];
    }
>> *)
Definition sum_selectors (n : nat) (sel : list F) : result (list F) :=
  let sumSel := <[0%nat := 0%Zmod]> (replicate (n + 1) 0%Zmod) in
  for_loop 0 n
    (fun i sumSel =>
       Ok (<[(i + 1)%nat := (sumSel !!! i + sel !!! i)%Zmod]> sumSel))
    sumSel.

(** Lines 42-46: the selected hash.
<<
    signal selectedHash[n+1];
    selectedHash[0] <== 0;
    for (var i = 0; i < n; i++) {
        selectedHash[i+1] <== selectedHash[i] + sel[i] * hashes[i];
    }
>> *)
Definition select_hash (n : nat) (sel hashes : list F) : result (list F) :=
  let selectedHash := <[0%nat := 0%Zmod]> (replicate (n + 1) 0%Zmod) in
  for_loop 0 n
    (fun i selectedHash =>
       Ok (<[(i + 1)%nat :=
              (selectedHash !!! i + sel !!! i * hashes !!! i)%Zmod]> selectedHash))
    selectedHash.

Definition HashListCheckInternal (n : nat) (r j : F) (hashes : list F)
    : result HashListCheckInternal_signals :=
  (* Hash(r) *)
  h ← Poseidon_component [r];
  let hr := pos_out h in
  (* Selectors *)
  '(sel, eq) ← selectors n j;
  (* Sum selectors *)
  sumSel ← sum_selectors n sel;
  _ ← assert (Zmod.eqb (sumSel !!! n) 1%Zmod)
        "HashListCheckInternal" "sumSel[n] === 1";
  (* Select hash *)
  selectedHash ← select_hash n sel hashes;
  _ ← assert (Zmod.eqb hr (selectedHash !!! n))
        "HashListCheckInternal" "hr === selectedHash[n]";
  let ok := 1%Zmod in
  Ok {| c_r := r; c_j := j; c_hashes := hashes; c_ok := ok; c_h := h;
        c_hr := hr; c_sel := sel; c_eq := eq; c_sumSel := sumSel;
        c_selectedHash := selectedHash |}.

(** The signal arrays have the dimensions the template declares. *)
Definition HashListCheckInternal_shape (n : nat)
    (c : HashListCheckInternal_signals) : bool :=
  (length (pos_inputs (c_h c)) =? 1)%nat
  && (length (c_hashes c) =? n)%nat
  && (length (c_sel c) =? n)%nat
  && (length (c_eq c) =? n)%nat
  && (length (c_sumSel c) =? n + 1)%nat
  && (length (c_selectedHash c) =? n + 1)%nat.

Definition HashListCheckInternal_constraints (n : nat)
    (c : HashListCheckInternal_signals) : list constraint :=
  (* h.inputs[0] <== r;  hr <== h.out; *)
  [ (pos_inputs (c_h c) !!! 0%nat, c_r c) ]
  ++ Poseidon_constraints (c_h c)
  ++ [ (c_hr c, pos_out (c_h c)) ]
  (* eq[i].in[0] <== j;  eq[i].in[1] <== i;  sel[i] <== eq[i].out; *)
  ++ flat_map (fun i =>
       [ (ieq_in0 (c_eq c !!! i), c_j c);
         (ieq_in1 (c_eq c !!! i), const i) ]
       ++ IsEqual_constraints (c_eq c !!! i)
       ++ [ (c_sel c !!! i, ieq_out (c_eq c !!! i)) ]) (seq 0 n)
  (* sumSel[0] <== 0;  sumSel[i+1] <== sumSel[i] + sel[i];  sumSel[n] === 1; *)
  ++ [ (c_sumSel c !!! 0%nat, 0%Zmod) ]
  ++ map (fun i =>
       (c_sumSel c !!! (i + 1)%nat,
        (c_sumSel c !!! i + c_sel c !!! i)%Zmod)) (seq 0 n)
  ++ [ (c_sumSel c !!! n, 1%Zmod) ]
  (* selectedHash[0] <== 0;
     selectedHash[i+1] <== selectedHash[i] + sel[i] * hashes[i];
     hr === selectedHash[n]; *)
  ++ [ (c_selectedHash c !!! 0%nat, 0%Zmod) ]
  ++ map (fun i =>
       (c_selectedHash c !!! (i + 1)%nat,
        (c_selectedHash c !!! i + c_sel c !!! i * c_hashes c !!! i)%Zmod))
       (seq 0 n)
  ++ [ (c_hr c, c_selectedHash c !!! n) ]
  (* ok <== 1; *)
  ++ [ (c_ok c, 1%Zmod) ].

Definition HashListCheckInternal_satisfied (n : nat)
    (c : HashListCheckInternal_signals) : bool :=
  HashListCheckInternal_shape n c
  && all_hold (HashListCheckInternal_constraints n c).

(** ** Main(n) *)

Record Main_signals : Type := {
  m_hashes : list F;
  m_r : F;
  m_j : F;
  m_ok : F;
  m_c : HashListCheckInternal_signals;
}.

(** Lines 67-69: wiring the public list into the component.
<<
    for (var i = 0; i < n; i++) {
        c.hashes[i] <== hashes[i];
    }
>> *)
Definition wire_hashes (n : nat) (hashes : list F) : result (list F) :=
  for_loop 0 n
    (fun i c_hashes => Ok (<[i := hashes !!! i]> c_hashes))
    (replicate n 0%Zmod).

Definition Main (n : nat) (hashes : list F) (r j : F) : result Main_signals :=
  (* Wire public *)
  c_hashes ← wire_hashes n hashes;
  (* Wire private: c.r <== r; c.j <== j; *)
  c ← HashListCheckInternal n r j c_hashes;
  (* ok <== c.ok; *)
  Ok {| m_hashes := hashes; m_r := r; m_j := j; m_ok := c_ok c; m_c := c |}.

Definition Main_shape (n : nat) (m : Main_signals) : bool :=
  (length (m_hashes m) =? n)%nat && HashListCheckInternal_shape n (m_c m).

Definition Main_constraints (n : nat) (m : Main_signals) : list constraint :=
  map (fun i => (c_hashes (m_c m) !!! i, m_hashes m !!! i)) (seq 0 n)
  ++ [ (c_r (m_c m), m_r m); (c_j (m_c m), m_j m) ]
  ++ HashListCheckInternal_constraints n (m_c m)
  ++ [ (m_ok m, c_ok (m_c m)) ].

Definition Main_satisfied (n : nat) (m : Main_signals) : bool :=
  Main_shape n m && all_hold (Main_constraints n m).

(** The hints of the [n] equality tests of an assignment have the values
    their [<--] assignments compute. *)
Definition Main_hints (n : nat) (m : Main_signals) : bool :=
  forallb (fun i => IsZero_hint (ieq_isz (c_eq (m_c m) !!! i))) (seq 0 n).

(** What the program prescribes of a witness of [Main(n)] on the inputs
    [hashes], [r], [j], in whatever order the signals are computed: it
    carries the inputs, every [<==] and [===] holds, and every [<--] hint
    has the value assigned to it. *)
Definition Main_witness (n : nat) (hashes : list F) (r j : F)
    (m : Main_signals) : Prop :=
  m_hashes m = hashes /\ m_r m = r /\ m_j m = j /\
  Main_satisfied n m = true /\ Main_hints n m = true.

End Circuit.

Arguments IsZero_signals p : clear implicits.
Arguments IsEqual_signals p : clear implicits.
Arguments Poseidon_signals p : clear implicits.
Arguments HashListCheckInternal_signals p : clear implicits.
Arguments Main_signals p : clear implicits.

(** [component main = Main(10);] *)
Definition main {p : Z} (Poseidon : list (Zmod p) -> Zmod p) :=
  Main Poseidon 10.

(** ** The Node drivers that build [input.json] *)

(** Values thrown by the scripts and by the built-ins they call. *)
Inductive js_error : Type :=
  | Error (message : string)
  | SyntaxError
  | SystemError.

(** The circuit input the scripts print: [{ r, j, hashes }], every value a
    string. *)
Record input : Type := {
  input_r : string;
  input_j : string;
  input_hashes : list string;
}.

(** What a script does besides computing: the calls into circomlibjs and
    the console. *)
Inductive event : Type :=
  | buildPoseidon
  | poseidon (inputs : list Z)
  | console_log (i : input)
  | console_error_usage
  | console_error (e : js_error).

Inductive outcome (A : Type) : Type :=
  | Returned (a : A)
  | Thrown (e : js_error)
  | Exited (code : Z).
Arguments Returned {A} a.
Arguments Thrown {A} e.
Arguments Exited {A} code.

(** A script step: the events it emitted, in order, and how it ended. *)
Definition js (A : Type) : Type := list event * outcome A.

#[global] Instance js_ret : MRet js := fun _ a => ([], Returned a).
#[global] Instance js_bind : MBind js := fun _ _ f x =>
  match x with
  | (log, Returned a) => let '(log', o) := f a in (log ++ log', o)
  | (log, Thrown e) => (log, Thrown e)
  | (log, Exited code) => (log, Exited code)
  end.

Definition emit (e : event) : js unit := ([e], Returned tt).
Definition throw {A} (e : js_error) : js A := ([], Thrown e).
Definition process_exit {A} (code : Z) : js A := ([], Exited code).

(** A built-in that throws when it has no result. *)
Definition or_throw {A} (e : js_error) (x : option A) : js A :=
  match x with
  | Some a => mret a
  | None => throw e
  end.

(** [x || d] on an argument that may be missing: [undefined] and the empty
    string are falsy. *)
Definition or_default (x : option string) (d : string) : string :=
  match x with
  | Some s => if bool_decide (s = "") then d else s
  | None => d
  end.

(** A JavaScript number as [parseInt] returns it: [NaN] or an integer.
    Rounding to a double, or to an infinity, leaves every integer on its
    side of 0 and of 9 and the integers from 0 to 9 unchanged, so the integer
    is kept exact. *)
Definition number : Type := option Z.
Definition NaN : number := None.

Definition is_digit (c : ascii) : bool :=
  (48 <=? nat_of_ascii c)%nat && (nat_of_ascii c <=? 57)%nat.

Definition digit_value (c : ascii) : Z := Z.of_nat (nat_of_ascii c) - 48.

(** A string is held as the bytes of its UTF-8 encoding, which is how an
    argument reaches [process.argv].  The white space [parseInt] skips is
    the language's [WhiteSpace] and [LineTerminator]: a character of one,
    two or three bytes.

    One byte: tab, line feed, vertical tab, form feed, carriage return
    (U+0009 to U+000D) and space (U+0020). *)
Definition is_white_space (c : ascii) : bool :=
  ((9 <=? nat_of_ascii c)%nat && (nat_of_ascii c <=? 13)%nat)
  || (nat_of_ascii c =? 32)%nat.

(** Two bytes: the no-break space U+00A0, [C2 A0]. *)
Definition is_white_space_2 (c1 c2 : ascii) : bool :=
  (nat_of_ascii c1 =? 194)%nat && (nat_of_ascii c2 =? 160)%nat.

(** Three bytes: U+1680 [E1 9A 80]; U+2000 to U+200A [E2 80 80] to
    [E2 80 8A]; the line and paragraph separators U+2028, U+2029
    [E2 80 A8], [E2 80 A9]; U+202F [E2 80 AF]; U+205F [E2 81 9F]; U+3000
    [E3 80 80]; the byte order mark U+FEFF [EF BB BF]. *)
Definition is_white_space_3 (c1 c2 c3 : ascii) : bool :=
  let b1 := nat_of_ascii c1 in
  let b2 := nat_of_ascii c2 in
  let b3 := nat_of_ascii c3 in
  ((b1 =? 225) && (b2 =? 154) && (b3 =? 128))%nat
  || ((b1 =? 226) && (b2 =? 128)
      && (((128 <=? b3) && (b3 <=? 138)) || (b3 =? 168) || (b3 =? 169)
          || (b3 =? 175)))%nat
  || ((b1 =? 226) && (b2 =? 129) && (b3 =? 159))%nat
  || ((b1 =? 227) && (b2 =? 128) && (b3 =? 128))%nat
  || ((b1 =? 239) && (b2 =? 187) && (b3 =? 191))%nat.

Fixpoint skip_white_space (s : string) : string :=
  match s with
  | String c1 s1 =>
      if is_white_space c1 then skip_white_space s1
      else
        match s1 with
        | String c2 s2 =>
            if is_white_space_2 c1 c2 then skip_white_space s2
            else
              match s2 with
              | String c3 s3 =>
                  if is_white_space_3 c1 c2 c3 then skip_white_space s3 else s
              | EmptyString => s
              end
        | EmptyString => s
        end
  | EmptyString => s
  end.

(** The longest prefix of decimal digits, read as an integer; [acc] is the
    value read so far, [NaN] when no digit was read yet. *)
Fixpoint parse_digits (s : string) (acc : number) : number :=
  match s with
  | String c s' =>
      if is_digit c
      then parse_digits s' (Some (10 * default 0 acc + digit_value c))
      else acc
  | EmptyString => acc
  end.

(** [parseInt(s, 10)] *)
Definition parseInt (s : string) : number :=
  match skip_white_space s with
  | String "-"%char s' => Z.opp <$> parse_digits s' NaN
  | String "+"%char s' => parse_digits s' NaN
  | s' => parse_digits s' NaN
  end.

(** [a < b] and [a > b] on numbers: false as soon as one side is [NaN]. *)
Definition js_lt (a : number) (b : Z) : bool :=
  match a with Some z => z <? b | None => false end.
Definition js_gt (a : number) (b : Z) : bool :=
  match a with Some z => b <? z | None => false end.

(** [String(j)] on a number. *)
Definition String_of_number (j : number) : string :=
  match j with Some z => pretty z | None => "NaN" end.

(** A parsed JSON document. *)
#[warnings="-register-all"]
Inductive json : Type :=
  | JNull
  | JBool (b : bool)
  | JNumber (literal : string)
  | JString (s : string)
  | JArray (items : list json)
  | JObject (members : list (string * json)).

Definition Array_isArray (v : json) : bool :=
  match v with JArray _ => true | _ => false end.

(** [v.length]: defined on arrays and strings. *)
Definition json_length (v : json) : option nat :=
  match v with
  | JArray items => Some (length items)
  | JString s => Some (String.length s)
  | _ => None
  end.

(** The specification's [ShapeMismatch], as [get_input_with_others.js]
    throws it. *)
Definition ShapeMismatch : js_error :=
  Error "others file must be a JSON array of exactly 9 hashes".

Section Driver.

Context {p : Z}.

(** circomlibjs: [poseidon(inputs)] computes the circuit's hash, on the
    inputs reduced into the field. *)
Variable Poseidon : list (Zmod p) -> Zmod p.

(** Built-ins of the platform: [BigInt(s)] ([None]: it throws a
    SyntaxError), [readFileSync(path, "utf8")] ([None]: it throws),
    [JSON.parse] ([None]: it throws a SyntaxError), [s.trim()], [String(h)]
    on a JSON value, and the default path
    [path.join(__dirname, "other_hashs.json")]. *)
Variable BigInt : string -> option Z.
Variable readFileSync : string -> option string.
Variable JSON_parse : string -> option json.
Variable trim : string -> string.
Variable String_of_json : json -> string.
Variable default_others_path : string.

(** [poseidon.F.toString(poseidon([x]))] *)
Definition poseidon_hash (x : Z) : js string :=
  _ ← emit (poseidon [x]);
  mret (pretty (Zmod.to_Z (Poseidon [Zmod.of_Z p x]))).

(** [get_input.js], [main]. *)
Definition get_input_main (argv2 argv3 : option string) : js unit :=
  (* const r = process.argv[2] || "12345"; *)
  let r := or_default argv2 "12345" in
  (* const j = parseInt(process.argv[3] || "0", 10); *)
  let j := parseInt (or_default argv3 "0") in
  if js_lt j 0 || js_gt j 9 then
    throw (Error "j must be 0–9")
  else
    _ ← emit buildPoseidon;
    r' ← or_throw SyntaxError (BigInt r);
    hashStr ← poseidon_hash r';
    (* const hashes = Array(10).fill("0");  hashes[j] = hashStr; *)
    let hashes := replicate 10 "0" in
    let hashes :=
      match j with
      | Some z => <[Z.to_nat z := hashStr]> hashes
      | None => hashes
      end in
    let input := {| input_r := r; input_j := String_of_number j;
                    input_hashes := hashes |} in
    emit (console_log input).

(** [main().catch(console.error);] *)
Definition get_input (argv2 argv3 : option string) : list event * Z :=
  match get_input_main argv2 argv3 with
  | (log, Returned _) => (log, 0)
  | (log, Thrown e) => (log ++ [console_error e], 0)
  | (log, Exited code) => (log, code)
  end.

(** [get_input_with_others.js], [main]. *)
Definition get_input_with_others_main (argv2 argv3 : option string) : js unit :=
  (* const secret = process.argv[2];  if (!secret) { ... } *)
  let secret := or_default argv2 "" in
  if bool_decide (secret = "") then
    _ ← emit console_error_usage;
    process_exit 1
  else
    let othersPath := or_default argv3 default_others_path in
    raw ← or_throw SystemError (readFileSync othersPath);
    if bool_decide (raw = "") || bool_decide (trim raw = "") then
      throw (Error ("Empty or missing file: " +:+ othersPath))
    else
      others ← or_throw SyntaxError (JSON_parse raw);
      if negb (Array_isArray others)
         || negb (bool_decide (json_length others = Some 9%nat)) then
        throw ShapeMismatch
      else
        _ ← emit buildPoseidon;
        secret' ← or_throw SyntaxError (BigInt secret);
        hashStr ← poseidon_hash secret';
        (* 10 hashes: 9 from file + secret's hash at index 9 *)
        let items := match others with JArray items => items | _ => [] end in
        let hashes := (String_of_json <$> items) ++ [hashStr] in
        let j : number := Some 9 in
        let input := {| input_r := secret; input_j := String_of_number j;
                        input_hashes := hashes |} in
        emit (console_log input).

(** [main().catch((e) => { console.error(e); process.exit(1); });] *)
Definition get_input_with_others (argv2 argv3 : option string) : list event * Z :=
  match get_input_with_others_main argv2 argv3 with
  | (log, Returned _) => (log, 0)
  | (log, Thrown e) => (log ++ [console_error e], 1)
  | (log, Exited code) => (log, code)
  end.

End Driver.

(** ** [get_hash.js] *)

Module GetHash.

(** The object the script prints: [{ secret, knownHash }]. *)
Record output : Type := {
  secret : string;
  knownHash : string;
}.

Inductive event : Type :=
  | buildPoseidon
  | poseidon (inputs : list Z)
  | console_log (o : output)
  | console_error (e : js_error).

Section Script.

Context {p : Z}.

Variable Poseidon : list (Zmod p) -> Zmod p.
Variable BigInt : string -> option Z.

(** [main]: the hash function is built first, then [BigInt(secret)] is
    evaluated, then the hash. *)
Definition main (argv2 : option string) : list event * outcome unit :=
  (* const secret = process.argv[2] || "12345"; *)
  let secret := or_default argv2 "12345" in
  (* const poseidon = await buildPoseidon(); *)
  match BigInt secret with
  | None => ([buildPoseidon], Thrown SyntaxError)
  | Some x =>
      (* const hash = poseidon([BigInt(secret)]); *)
      let hash := Poseidon [Zmod.of_Z p x] in
      (* const knownHash = poseidon.F.toString(hash); *)
      let knownHash := pretty (Zmod.to_Z hash) in
      ([buildPoseidon; poseidon [x];
        console_log {| secret := secret; knownHash := knownHash |}],
       Returned tt)
  end.

(** [main().catch(console.error);] *)
Definition get_hash (argv2 : option string) : list event * Z :=
  match main argv2 with
  | (log, Returned _) => (log, 0)
  | (log, Thrown e) => (log ++ [console_error e], 0)
  | (log, Exited code) => (log, code)
  end.

End Script.

End GetHash.

(** ** The proving scripts, [prove.sh] and [prove_with_list.sh] *)

(** The commands a script runs. *)
Inductive command : Type :=
  | echo (line : string)
  (* node get_input.js "$R" "$J" > hash_preimage_js/input.json *)
  | node_get_input (r j : string)
  (* node get_input_with_others.js "$SECRET" "$OTHERS" > hash_preimage_js/input.json *)
  | node_get_input_with_others (secret others : string)
  (* node hash_preimage_js/generate_witness.js ... hash_preimage_js/input.json ... *)
  | node_generate_witness (input_json : list input)
  (* snarkjs groth16 prove ... hash_preimage_js/witness.wtns ... *)
  | snarkjs_groth16_prove (input_json : list input).

Inductive status (A : Type) : Type :=
  | Next (a : A)
  | Exit (code : Z).
Arguments Next {A} a.
Arguments Exit {A} code.

(** A script step: the commands it ran, in order, and whether the script
    goes on. *)
Definition sh (A : Type) : Type := list command * status A.

#[global] Instance sh_ret : MRet sh := fun _ a => ([], Next a).
#[global] Instance sh_bind : MBind sh := fun _ _ f x =>
  match x with
  | (trace, Next a) => let '(trace', s) := f a in (trace ++ trace', s)
  | (trace, Exit code) => (trace, Exit code)
  end.

(** A command under [set -e]: an exit status other than 0 ends the script
    with that status. *)
Definition run (c : command) (code : Z) : sh unit :=
  ([c], if bool_decide (code = 0) then Next tt else Exit code).

(** [exit code] *)
Definition exit {A} (code : Z) : sh A := ([], Exit code).

(** [${x:-d}]: the default is used when the parameter is unset or empty. *)
Definition parameter_default (x : option string) (d : string) : string :=
  match x with
  | Some s => if bool_decide (s = "") then d else s
  | None => d
  end.

(** What a Node script wrote to its standard output, which the scripts
    redirect into [hash_preimage_js/input.json]: the inputs it printed with
    [console.log].  [console.error] writes to the error stream. *)
Definition stdout (log : list event) : list input :=
  omap (fun e => match e with console_log i => Some i | _ => None end) log.

Section Scripts.

Context {p : Z}.

Variable Poseidon : list (Zmod p) -> Zmod p.
Variable BigInt : string -> option Z.
Variable readFileSync : string -> option string.
Variable JSON_parse : string -> option json.
Variable trim : string -> string.
Variable String_of_json : json -> string.
Variable default_others_path : string.

(** The tools of the toolchain: the exit status of the witness generator
    and of the prover on a given [input.json], and the contents of
    [prover/public.json] afterwards. *)
Variable generate_witness : list input -> Z.
Variable groth16_prove : list input -> Z.
Variable public_json : string.

(** The script ends with the status of its last command. *)
Definition exit_status (s : sh unit) : list command * Z :=
  match s with
  | (trace, Next _) => (trace, 0)
  | (trace, Exit code) => (trace, code)
  end.

(** [prove.sh] *)
Definition prove_sh (arg1 arg2 : option string) : list command * Z :=
  exit_status (
    (* R=${1:-12345}  J=${2:-0} *)
    let R := parameter_default arg1 "12345" in
    let J := parameter_default arg2 "0" in
    _ ← run (echo ("Generating input: r=" +:+ R +:+ ", j=" +:+ J
                   +:+ ", hashes[j]=Poseidon(r)...")) 0;
    let node := get_input Poseidon BigInt (Some R) (Some J) in
    _ ← run (node_get_input R J) node.2;
    let input_json := stdout node.1 in
    _ ← run (echo "Generating witness...") 0;
    _ ← run (node_generate_witness input_json) (generate_witness input_json);
    _ ← run (echo "Creating proof...") 0;
    _ ← run (snarkjs_groth16_prove input_json) (groth16_prove input_json);
    _ ← run (echo "") 0;
    _ ← run (echo "Proof saved to prover/proof.json") 0;
    _ ← run (echo ("Public signal (ok): " +:+ public_json)) 0;
    run (echo "Verify: snarkjs groth16 verify snarkjs/hash_preimage_verification_key.json prover/public.json prover/proof.json") 0).

(** [prove_with_list.sh] *)
Definition prove_with_list_sh (arg1 arg2 : option string) : list command * Z :=
  exit_status (
    (* SECRET=$1 *)
    let SECRET := default "" arg1 in
    (* if [ -z "$SECRET" ]; then ... fi *)
    _ ← (if bool_decide (SECRET = "") then
           _ ← run (echo "Usage: ./prove_with_list.sh <secret> [others.json]") 0;
           exit 1
         else mret tt);
    (* OTHERS=${2:-other_hashs.json} *)
    let OTHERS := parameter_default arg2 "other_hashs.json" in
    _ ← run (echo ("Building input: 9 hashes from " +:+ OTHERS
                   +:+ " + Poseidon(secret) at index 9...")) 0;
    let node := get_input_with_others Poseidon BigInt readFileSync JSON_parse
                  trim String_of_json default_others_path
                  (Some SECRET) (Some OTHERS) in
    _ ← run (node_get_input_with_others SECRET OTHERS) node.2;
    let input_json := stdout node.1 in
    _ ← run (echo "Generating witness...") 0;
    _ ← run (node_generate_witness input_json) (generate_witness input_json);
    _ ← run (echo "Creating proof...") 0;
    _ ← run (snarkjs_groth16_prove input_json) (groth16_prove input_json);
    _ ← run (echo "") 0;
    _ ← run (echo "Proof saved to prover/proof.json") 0;
    run (echo "Verify: ./verify.sh") 0).

End Scripts.

(** ** The scenarios of the specification *)

(** The scenarios run in the circuit's field with a small stand-in for the
    Poseidon permutation, which the circuit treats as a black box. *)
Definition fe (z : Z) : Zmod bn128 := Zmod.of_Z bn128 z.

Definition toy_hash (inputs : list (Zmod bn128)) : Zmod bn128 :=
  foldr (fun x acc => (x * x * x * x * x + fe 3 * acc + fe 7)%Zmod) (fe 0) inputs.

(** Scenario 1: [list[3] = H(42)], all other entries 0. *)
Definition scenario_list : list (Zmod bn128) :=
  <[3%nat := toy_hash [fe 42]]> (replicate 10 (fe 0)).

(** The witness of scenario 1, [secret = 42, index = 3]. *)
Definition scenario_witness : Main_signals bn128 :=
  match main toy_hash scenario_list (fe 42) (fe 3) with
  | Ok w => w
  | Err _ =>
      {| m_hashes := []; m_r := fe 0; m_j := fe 0; m_ok := fe 0;
         m_c := {| c_r := fe 0; c_j := fe 0; c_hashes := []; c_ok := fe 0;
                   c_h := {| pos_inputs := []; pos_out := fe 0 |};
                   c_hr := fe 0; c_sel := []; c_eq := []; c_sumSel := [];
                   c_selectedHash := [] |} |}
  end.

(** A platform for the scripts: an others file with 8 entries, and one
    with 9. *)
Definition toy_BigInt (s : string) : option Z := parseInt s.

Definition toy_String_of_json (v : json) : string :=
  match v with
  | JString s => s
  | JNumber literal => literal
  | _ => "null"
  end.

Definition toy_JSON_parse (raw : string) : option json :=
  if bool_decide (raw = "eight") then Some (JArray (replicate 8 (JString "1")))
  else if bool_decide (raw = "nine") then Some (JArray (replicate 9 (JString "1")))
  else None.

Definition toy_readFileSync (path : string) : option string :=
  if bool_decide (path = "other_hashs.json") then Some "nine"
  else if bool_decide (path = "short.json") then Some "eight"
  else None.

(** ** Vocabulary of the statements *)

(** The sum of a list of field elements. *)
Definition fsum {p : Z} (l : list (Zmod p)) : Zmod p :=
  foldr Zmod.add 0%Zmod l.

(** The position an index designates: its canonical representative. *)
Definition position {p : Z} (j : Zmod p) : nat := Z.to_nat (Zmod.to_Z j).

(** [sel] is one-hot on its first [n] entries, with the 1 at [k]. *)
Definition one_hot {p : Z} (n : nat) (sel : list (Zmod p)) (k : nat) : Prop :=
  (k < n)%nat /\
  forall i, (i < n)%nat -> sel !!! i = if decide (i = k) then 1%Zmod else 0%Zmod.

(** Two assignments of [Main]'s signals agree on every signal, except
    possibly on the inverse hint of the equality test at position [k]. *)
Definition agree {p : Z} (n k : nat) (w w' : Main_signals p) : Prop :=
  m_hashes w = m_hashes w' /\ m_r w = m_r w' /\ m_j w = m_j w' /\
  m_ok w = m_ok w' /\
  c_r (m_c w) = c_r (m_c w') /\ c_j (m_c w) = c_j (m_c w') /\
  c_hashes (m_c w) = c_hashes (m_c w') /\ c_ok (m_c w) = c_ok (m_c w') /\
  c_h (m_c w) = c_h (m_c w') /\ c_hr (m_c w) = c_hr (m_c w') /\
  c_sel (m_c w) = c_sel (m_c w') /\
  c_sumSel (m_c w) = c_sumSel (m_c w') /\
  c_selectedHash (m_c w) = c_selectedHash (m_c w') /\
  length (c_eq (m_c w)) = length (c_eq (m_c w')) /\
  forall i, (i < n)%nat ->
    ieq_in0 (c_eq (m_c w) !!! i) = ieq_in0 (c_eq (m_c w') !!! i) /\
    ieq_in1 (c_eq (m_c w) !!! i) = ieq_in1 (c_eq (m_c w') !!! i) /\
    ieq_out (c_eq (m_c w) !!! i) = ieq_out (c_eq (m_c w') !!! i) /\
    isz_in (ieq_isz (c_eq (m_c w) !!! i))
      = isz_in (ieq_isz (c_eq (m_c w') !!! i)) /\
    isz_out (ieq_isz (c_eq (m_c w) !!! i))
      = isz_out (ieq_isz (c_eq (m_c w') !!! i)) /\
    (i <> k ->
     isz_inv (ieq_isz (c_eq (m_c w) !!! i))
       = isz_inv (ieq_isz (c_eq (m_c w') !!! i))).

(** The assignment [w] with the inverse hint of the equality test at
    position [k] replaced by [v]; every other signal is kept. *)
Definition set_inverse_hint {p : Z} (k : nat) (v : Zmod p) (w : Main_signals p)
    : Main_signals p :=
  let c := m_c w in
  let e := c_eq c !!! k in
  let z := ieq_isz e in
  let e' := {| ieq_in0 := ieq_in0 e; ieq_in1 := ieq_in1 e; ieq_out := ieq_out e;
               ieq_isz := {| isz_in := isz_in z; isz_out := isz_out z;
                             isz_inv := v |} |} in
  {| m_hashes := m_hashes w; m_r := m_r w; m_j := m_j w; m_ok := m_ok w;
     m_c := {| c_r := c_r c; c_j := c_j c; c_hashes := c_hashes c;
               c_ok := c_ok c; c_h := c_h c; c_hr := c_hr c;
               c_sel := c_sel c; c_eq := <[k := e']> (c_eq c);
               c_sumSel := c_sumSel c;
               c_selectedHash := c_selectedHash c |} |}.

Section Stages.

Context {p : Z}.

(** What the three loops leave in the signal arrays, for an index [j]. *)
Record stages (n : nat) (j : Zmod p) (hashes sel : list (Zmod p))
    (eq : list (IsEqual_signals p)) (sumSel selectedHash : list (Zmod p)) : Prop := {
  st_selectors : selectors n j = Ok (sel, eq);
  st_sum_selectors : sum_selectors n sel = Ok sumSel;
  st_select_hash : select_hash n sel hashes = Ok selectedHash;
  st_length_sel : length sel = n;
  st_length_eq : length eq = n;
  st_length_sumSel : length sumSel = (n + 1)%nat;
  st_length_selectedHash : length selectedHash = (n + 1)%nat;
  st_eq : forall i, (i < n)%nat ->
    IsEqual j (const i) = Ok (eq !!! i) /\
    sel !!! i = ieq_out (eq !!! i) /\
    ieq_in0 (eq !!! i) = j /\ ieq_in1 (eq !!! i) = const i /\
    all_hold (IsEqual_constraints (eq !!! i)) = true /\
    sel !!! i = if decide (j = const i) then 1%Zmod else 0%Zmod;
  st_sumSel : forall k, (k <= n)%nat ->
    sumSel !!! k = fsum (map (fun i => sel !!! i) (seq 0 k));
  st_selectedHash : forall k, (k <= n)%nat ->
    selectedHash !!! k
    = fsum (map (fun i => (sel !!! i * hashes !!! i)%Zmod) (seq 0 k));
}.

End Stages.

(** * Properties *)

(** A loop whose body never fails and preserves an invariant runs to the end
    and establishes the invariant at the exit index. *)
Lemma for_loop_invariant {S : Type} (P : nat -> S -> Prop)
    (body : nat -> S -> result S) (count i0 : nat) (s0 : S) :
  P i0 s0 ->
  (forall i s, (i0 <= i < i0 + count)%nat -> P i s ->
     exists s', body i s = Ok s' /\ P (Datatypes.S i) s') ->
  exists s', for_loop i0 count body s0 = Ok s' /\ P (i0 + count)%nat s'.
Proof.
  revert i0 s0. induction count as [|k IH]; intros i0 s0 H0 Hstep.
  - exists s0. rewrite Nat.add_0_r. auto.
  - destruct (Hstep i0 s0 ltac:(lia) H0) as (s1 & Hb & H1).
    destruct (IH (Datatypes.S i0) s1 H1) as (s' & Hl & H').
    { intros i s Hi. apply Hstep. lia. }
    exists s'. simpl. rewrite Hb. simpl. split; [exact Hl|].
    replace (i0 + Datatypes.S k)%nat with (Datatypes.S i0 + k)%nat by lia. exact H'.
Qed.

(** ** Primality of the field's modulus *)

(** Every number above 1 has a prime divisor, and a composite one has a
    prime divisor that does not exceed its square root. *)
Lemma prime_divisor (n : Z) :
  1 < n -> exists r, Z.prime r /\ (r | n) /\ (Z.prime n \/ r * r <= n).
Proof.
  intros Hn. assert (H0 : 0 <= n) by lia. revert Hn. pattern n.
  apply Z_lt_induction; [|exact H0]. clear n H0. intros n IH Hn.
  destruct (prime_dec n) as [Hp|Hnp].
  - exists n. rewrite <- prime_alt in Hp. split; [exact Hp|].
    split; [apply Z.divide_refl | left; exact Hp].
  - destruct (not_prime_divide n Hn Hnp) as (d & Hd & e & He).
    assert (Hepos : 1 < e < n) by nia.
    destruct (Z_le_gt_dec d e) as [Hle|Hgt].
    + destruct (IH d ltac:(lia) ltac:(lia)) as (r & Hr & Hrd & _).
      exists r. split; [exact Hr|]. split.
      * apply Z.divide_trans with d; [exact Hrd|]. exists e. lia.
      * right. assert (0 < r) by (pose proof (Z.prime_ge_2 _ Hr); lia).
        assert (r <= d) by (apply Z.divide_pos_le; [lia | exact Hrd]). nia.
    + destruct (IH e ltac:(lia) ltac:(lia)) as (r & Hr & Hre & _).
      exists r. split; [exact Hr|]. split.
      * apply Z.divide_trans with e; [exact Hre|]. exists d. lia.
      * right. assert (0 < r) by (pose proof (Z.prime_ge_2 _ Hr); lia).
        assert (r <= e) by (apply Z.divide_pos_le; [lia | exact Hre]). nia.
Qed.

(** Trial division that answers [true] has met no divisor up to the square
    root. *)
Lemma trial_division_sound (fuel : nat) (n d : Z) :
  2 <= d ->
  trial_division fuel n d = true ->
  forall k, d <= k -> k * k <= n -> ~ (k | n).
Proof.
  revert d. induction fuel as [|fuel IH]; intros d Hd Ht k Hk Hkk; [discriminate|].
  simpl in Ht. destruct (Z.ltb_spec n (d * d)) as [Hlt|Hge]; [nia|].
  destruct (Z.eqb_spec (n mod d) 0) as [E|E]; [discriminate|].
  destruct (Z.eq_dec k d) as [->|Hne].
  - intros Hdiv. apply E. apply Z.mod_divide; [lia | exact Hdiv].
  - apply (IH (d + 1)); try assumption; lia.
Qed.

Lemma prime_by_trial_sound (n : Z) : prime_by_trial n = true -> Z.prime n.
Proof.
  unfold prime_by_trial. intros H. apply andb_true_iff in H as (H1 & Ht).
  apply Z.ltb_lt in H1.
  destruct (prime_divisor n H1) as (r & Hr & Hrn & [Hp|Hsmall]); [exact Hp|].
  exfalso. pose proof (Z.prime_ge_2 _ Hr).
  exact (trial_division_sound _ n 2 ltac:(lia) Ht r ltac:(lia) Hsmall Hrn).
Qed.

(** Pairwise coprime divisors of [m] have their product dividing [m]. *)
Lemma coprime_product_divides (qs : list Z) (F m : Z) :
  coprime_product qs = Some F ->
  (forall q, In q qs -> (q | m)) ->
  (F | m).
Proof.
  revert F. induction qs as [|q qs IH]; intros F HF Hdiv; simpl in HF.
  - injection HF as <-. apply Z.divide_1_l.
  - destruct (coprime_product qs) as [F'|]; [|discriminate].
    destruct (Z.eqb_spec (Z.gcd q F') 1) as [Hg|]; [|discriminate].
    injection HF as <-.
    destruct (IH F' eq_refl) as (k & Hk); [intros; apply Hdiv; right; assumption|].
    assert (Hq : (q | m)) by (apply Hdiv; left; reflexivity).
    rewrite Hk in Hq. rewrite Z.mul_comm in Hq.
    apply Z.gauss in Hq; [|exact Hg]. destruct Hq as (k' & ->).
    exists k'. lia.
Qed.

(** An element of order [q] modulo [N], with [t - 1] coprime to [N], has
    order [q] modulo every prime factor [r] of [N]; by Fermat's little
    theorem [q] divides [r - 1]. *)
Lemma pocklington_step_divides (N q t r : Z) :
  1 < N -> Z.prime q -> Z.prime r -> (r | N) ->
  pocklington_step N (q, t) = true ->
  (q | r - 1).
Proof.
  intros HN Hq Hr HrN Hstep. unfold pocklington_step in Hstep.
  apply andb_true_iff in Hstep as (Hpow & Hgcd).
  apply Z.eqb_eq in Hgcd. apply Zmod.eqb_eq in Hpow.
  pose proof (Z.prime_ge_2 _ Hq) as Hq2. pose proof (Z.prime_ge_2 _ Hr) as Hr2.
  (* the certificate, modulo the prime factor r *)
  assert (Hmod : forall z, (z mod N) mod r = z mod r).
  { intros z. destruct HrN as (c & ->).
    rewrite Z.mul_comm. apply Z.mod_mod_divide. exists c. lia. }
  set (y := Zmod.of_Z r t).
  assert (Hy1 : Zmod.pow y q = Zmod.one).
  { transitivity (Zmod.of_Z r (Zmod.to_Z (Zmod.pow (Zmod.of_Z N t) q))).
    - symmetry. rewrite Zmod.unsigned_pow_nonneg_r, Zmod.unsigned_of_Z by lia.
      rewrite <- Zmod.of_Z_mod, Hmod, Zmod.of_Z_mod.
      rewrite Zmod.of_Z_pow by lia.
      unfold y. f_equal. rewrite <- Zmod.of_Z_mod, Hmod, Zmod.of_Z_mod. reflexivity.
    - rewrite Hpow, Zmod.unsigned_of_Z.
      rewrite <- Zmod.of_Z_mod, Hmod, Zmod.of_Z_mod. apply Zmod.of_Z_1. }
  assert (Hy2 : y <> Zmod.one).
  { intros E. unfold y in E. rewrite <- Zmod.of_Z_1 in E. apply Zmod.of_Z_inj in E.
    assert (Hdiv1 : (r | t - 1)).
    { apply Z.mod_divide; [lia|]. rewrite Zminus_mod, E, Z.sub_diag.
      apply Z.mod_0_l. lia. }
    assert (Hd : (r | Z.gcd (t - 1) N)) by (apply Z.gcd_greatest; assumption).
    rewrite Hgcd in Hd. apply Z.divide_1_r_nonneg in Hd; lia. }
  assert (Hynz : y <> Zmod.zero).
  { intros E. rewrite E, Zmod.pow_0_l in Hy1 by lia.
    symmetry in Hy1. revert Hy1. apply Zmod.one_neq_zero. lia. }
  assert (Hcop : Z.coprime (Zmod.to_Z y) r).
  { unfold Z.coprime. rewrite Z.gcd_comm. apply Z.coprime_prime_small; [exact Hr|].
    pose proof (Zmod.unsigned_pos_bound y ltac:(lia)).
    pose proof (Zmod.unsigned_nz y Hynz). lia. }
  (* in the group of units modulo r, of order r - 1 *)
  set (beta := Zstar.of_Zmod y).
  assert (Hbeta : Zstar.to_Zmod beta = y) by (apply Zstar.to_Zmod_of_Zmod, Hcop).
  assert (Hb1 : Zstar.pow beta q = Zstar.one).
  { apply Zstar.to_Zmod_inj. rewrite Zstar.to_Zmod_pow, Hbeta, Zstar.to_Zmod_1. exact Hy1. }
  assert (Hb2 : beta <> Zstar.one).
  { intros E. apply Hy2. rewrite <- Hbeta, E. apply Zstar.to_Zmod_1. }
  assert (Hb3 : Zstar.pow beta (r - 1) = Zstar.one).
  { replace (r - 1) with (Z.pred r) by lia. apply Zstar.fermat, Hr. }
  destruct (Z.eq_dec ((r - 1) mod q) 0) as [Hd|Hnd'];
    [apply Z.mod_divide; [lia | exact Hd]|].
  assert (Hnd : ~ (q | r - 1)) by (intros Hd; apply Hnd', Z.mod_divide; [lia | exact Hd]).
  exfalso. apply Hb2.
  pose proof (Z.coprime_prime_l q (r - 1) Hq Hnd) as Hc.
  apply Z.Bezout_coprime_iff in Hc. destruct Hc as (u & v & Huv).
  rewrite <- (Zstar.pow_1_r beta), <- Huv, Zstar.pow_add_r.
  rewrite (Z.mul_comm u q), (Z.mul_comm v (r - 1)), !Zstar.pow_mul_r, Hb1, Hb3.
  rewrite !Zstar.pow_1_l. apply Zstar.mul_1_l.
Qed.

(** Pocklington's criterion: every prime factor of [N] is 1 modulo the
    product [F] of the certificate's primes, hence above the square root of
    [N] when [N < F * F]; then [N] has no prime factor below its square root
    and is prime. *)
Theorem pocklington_sound (N : Z) (cert : list (Z * Z)) :
  (forall qa, In qa cert -> Z.prime (fst qa)) ->
  pocklington N cert = true ->
  Z.prime N.
Proof.
  intros Hprimes Hcheck. unfold pocklington in Hcheck.
  apply andb_true_iff in Hcheck as (Hcheck & HF).
  apply andb_true_iff in Hcheck as (HN & Hsteps).
  apply Z.ltb_lt in HN. rewrite forallb_forall in Hsteps.
  destruct (coprime_product (fst <$> cert)) as [F|] eqn:EF; [|discriminate].
  apply Z.ltb_lt in HF.
  destruct (prime_divisor N HN) as (r & Hr & HrN & [Hp|Hsmall]); [exact Hp|].
  exfalso. pose proof (Z.prime_ge_2 _ Hr) as Hr2.
  assert (Hdiv : (F | r - 1)).
  { apply (coprime_product_divides _ F (r - 1) EF).
    intros q Hq. apply in_map_iff in Hq as ([q' t] & <- & Hin). simpl.
    apply (pocklington_step_divides N q' t r HN (Hprimes _ Hin) Hr HrN).
    apply Hsteps, Hin. }
  apply Z.absle_divide in Hdiv; [|lia].
  assert (F * F <= (r - 1) * (r - 1)) by nia. nia.
Qed.

Lemma primes_by_trial (l : list Z) :
  forallb prime_by_trial l = true -> Forall Z.prime l.
Proof.
  intros H. apply Forall_forall. intros n Hn. apply prime_by_trial_sound.
  rewrite forallb_forall in H. apply H. apply list_elem_of_In. exact Hn.
Qed.

Lemma pocklington_certificate (N : Z) (cert : list (Z * Z)) :
  Forall Z.prime (fst <$> cert) ->
  pocklington N cert = true ->
  Z.prime N.
Proof.
  intros Hprimes. apply pocklington_sound. intros qa Hin.
  rewrite Forall_forall in Hprimes. apply Hprimes.
  apply list_elem_of_In, in_map, Hin.
Qed.

(** The chain of certificates below [bn128]. *)
Lemma small_primes :
  Forall Z.prime [13; 29; 661; 983; 3691; 4999; 11003; 93001; 237073].
Proof. apply primes_by_trial. vm_compute. reflexivity. Qed.

Ltac small_prime :=
  let H := fresh in
  pose proof small_primes as H;
  rewrite Forall_forall in H; apply H; repeat constructor.

Ltac prime_list tac :=
  cbn [fmap list_fmap fst]; repeat (apply List.Forall_cons; [tac|]); apply List.Forall_nil.

Lemma prime_405928799 : Z.prime 405928799.
Proof.
  apply (pocklington_certificate _ [(4999, 357727241); (3691, 122990330)]).
  - prime_list small_prime.
  - vm_compute. reflexivity.
Qed.

Lemma prime_12048837557 : Z.prime 12048837557.
Proof.
  apply (pocklington_certificate _ [(93001, 4746995210); (661, 8877273464)]).
  - prime_list small_prime.
  - vm_compute. reflexivity.
Qed.

Lemma prime_5156902474397 : Z.prime 5156902474397.
Proof.
  apply (pocklington_certificate _ [(12048837557, 4746712836098)]).
  - prime_list ltac:(exact prime_12048837557).
  - vm_compute. reflexivity.
Qed.

Lemma prime_1670836401704629 : Z.prime 1670836401704629.
Proof.
  apply (pocklington_certificate _ [(5156902474397, 11046204280772)]).
  - prime_list ltac:(exact prime_5156902474397).
  - vm_compute. reflexivity.
Qed.

(** The modulus of the circuit's field is prime. *)
Theorem bn128_prime : Z.prime bn128.
Proof.
  apply (pocklington_certificate _ bn128_certificate).
  - unfold bn128_certificate.
    prime_list ltac:(first [exact prime_405928799 | exact prime_1670836401704629
                           | small_prime]).
  - vm_compute. reflexivity.
Qed.

(** ** The field and the comparators *)

Section Field_facts.

Context {p : Z} (p_prime : Z.prime p).

Add Ring field_ring : (Zmod.ring_theory p).

Lemma F_one_neq_zero : (1 : Zmod p)%Zmod <> 0%Zmod.
Proof. apply Zmod.one_neq_zero. pose proof (Z.prime_ge_2 _ p_prime). lia. Qed.

Lemma eqb_decide (x y : Zmod p) : Zmod.eqb x y = bool_decide (x = y).
Proof.
  destruct (Zmod.eqb_spec x y) as [E|E].
  - rewrite bool_decide_eq_true_2; auto.
  - rewrite bool_decide_eq_false_2; auto.
Qed.

Lemma holds_iff (c : Zmod p * Zmod p) : holds c = true <-> c.1 = c.2.
Proof. unfold holds. apply Zmod.eqb_eq. Qed.

Lemma all_hold_app (cs1 cs2 : list (Zmod p * Zmod p)) :
  all_hold (cs1 ++ cs2) = true <-> all_hold cs1 = true /\ all_hold cs2 = true.
Proof. unfold all_hold. rewrite forallb_app, andb_true_iff. reflexivity. Qed.

Lemma all_hold_cons (c : Zmod p * Zmod p) (cs : list (Zmod p * Zmod p)) :
  all_hold (c :: cs) = true <-> c.1 = c.2 /\ all_hold cs = true.
Proof. unfold all_hold. simpl. rewrite andb_true_iff, holds_iff. reflexivity. Qed.

Lemma all_hold_nil : all_hold (@nil (Zmod p * Zmod p)) = true.
Proof. reflexivity. Qed.

Lemma all_hold_map_seq (f : nat -> Zmod p * Zmod p) (n : nat) :
  all_hold (map f (seq 0 n)) = true <-> forall i, (i < n)%nat -> (f i).1 = (f i).2.
Proof.
  unfold all_hold. rewrite forallb_forall. split.
  - intros H i Hi. apply holds_iff, H, in_map_iff. exists i. split; [reflexivity|].
    apply in_seq. lia.
  - intros H c Hc. apply in_map_iff in Hc as (i & <- & Hi). apply in_seq in Hi.
    apply holds_iff, H. lia.
Qed.

Lemma all_hold_flat_map_seq (f : nat -> list (Zmod p * Zmod p)) (n : nat) :
  all_hold (flat_map f (seq 0 n)) = true <->
  forall i, (i < n)%nat -> all_hold (f i) = true.
Proof.
  unfold all_hold. rewrite forallb_forall. split.
  - intros H i Hi. apply forallb_forall. intros c Hc. apply H, in_flat_map.
    exists i. split; [apply in_seq; lia | exact Hc].
  - intros H c Hc. apply in_flat_map in Hc as (i & Hi & Hc). apply in_seq in Hi.
    specialize (H i ltac:(lia)). rewrite forallb_forall in H. auto.
Qed.

(** The witness computation of [IsZero] never fails and decides [in = 0]. *)
Lemma IsZero_run (x : Zmod p) :
  IsZero x =
  Ok {| isz_in := x;
        isz_out := if decide (x = 0%Zmod) then 1%Zmod else 0%Zmod;
        isz_inv := if decide (x = 0%Zmod) then 0%Zmod else Zmod.inv x |}.
Proof.
  unfold IsZero, Zmod.mdiv. rewrite Zmod.mul_1_l, (eqb_decide x 0%Zmod).
  destruct (decide (x = 0%Zmod)) as [->|Hx]; cbn [negb].
  - rewrite bool_decide_eq_true_2 by reflexivity. cbn [negb].
    replace (- (0 : Zmod p) * 0 + 1)%Zmod with (1 : Zmod p)%Zmod by ring.
    replace ((0 : Zmod p) * 1)%Zmod with (0 : Zmod p)%Zmod by ring.
    rewrite Zmod.eqb_refl. reflexivity.
  - rewrite bool_decide_eq_false_2 by exact Hx. cbn [negb].
    assert (E : (- x * Zmod.inv x + 1)%Zmod = (0 : Zmod p)%Zmod).
    { transitivity (- (x * Zmod.inv x) + 1)%Zmod; [ring|].
      rewrite (Zmod.mul_inv_same_r_prime x p_prime Hx). ring. }
    rewrite E.
    replace (x * 0)%Zmod with (0 : Zmod p)%Zmod by ring.
    rewrite Zmod.eqb_refl. reflexivity.
Qed.

(** Any assignment of [IsZero]'s signals that satisfies its two constraints
    has [out] deciding [in = 0], whatever the hint. *)
Lemma IsZero_sound (z : IsZero_signals p) :
  all_hold (IsZero_constraints z) = true ->
  isz_out z = if decide (isz_in z = 0%Zmod) then 1%Zmod else 0%Zmod.
Proof.
  unfold IsZero_constraints.
  rewrite !all_hold_cons. simpl. intros (Hout & Hmul & _).
  destruct (decide (isz_in z = 0%Zmod)) as [E|E].
  - rewrite Hout, E. ring.
  - apply (Zmod.mul_0_iff_prime p_prime) in Hmul. tauto.
Qed.

Lemma IsEqual_run (a b : Zmod p) :
  exists e, IsEqual a b = Ok e /\
    ieq_in0 e = a /\ ieq_in1 e = b /\
    ieq_out e = (if decide (a = b) then 1%Zmod else 0%Zmod) /\
    all_hold (IsEqual_constraints e) = true.
Proof.
  unfold IsEqual. rewrite IsZero_run. simpl.
  eexists. split; [reflexivity|]. simpl. split; [reflexivity|]. split; [reflexivity|].
  assert (Hsub : (b - a)%Zmod = 0%Zmod <-> a = b).
  { split; intros E.
    - transitivity (b - (b - a))%Zmod; [ring | rewrite E; ring].
    - rewrite E. ring. }
  split.
  - destruct (decide ((b - a)%Zmod = 0%Zmod)) as [E|E], (decide (a = b)) as [E'|E'];
      tauto.
  - rewrite !andb_true_iff, !holds_iff. cbn [fst snd]. repeat split.
    + destruct (decide ((b - a)%Zmod = 0%Zmod)) as [E|E].
      * rewrite E. ring.
      * transitivity (- ((b - a) * Zmod.inv (b - a)) + 1)%Zmod; [|ring].
        rewrite (Zmod.mul_inv_same_r_prime _ p_prime E). ring.
    + destruct (decide ((b - a)%Zmod = 0%Zmod)) as [E|E].
      * rewrite E. ring.
      * ring.
Qed.

Lemma IsEqual_sound (e : IsEqual_signals p) :
  all_hold (IsEqual_constraints e) = true ->
  ieq_out e = if decide (ieq_in0 e = ieq_in1 e) then 1%Zmod else 0%Zmod.
Proof.
  unfold IsEqual_constraints. rewrite !all_hold_app, !all_hold_cons. simpl.
  intros ((Hin & _) & Hz & Hout & _).
  rewrite Hout, (IsZero_sound _ Hz), Hin.
  destruct (decide ((ieq_in1 e - ieq_in0 e)%Zmod = 0%Zmod)) as [E|E],
           (decide (ieq_in0 e = ieq_in1 e)) as [E'|E']; try reflexivity.
  - exfalso. apply E'. transitivity (ieq_in1 e - (ieq_in1 e - ieq_in0 e))%Zmod; [ring|].
    rewrite E. ring.
  - exfalso. apply E. rewrite E'. ring.
Qed.

End Field_facts.

(** ** The three loops of [HashListCheckInternal] *)

Section Loop_facts.

Context {p : Z} (p_prime : Z.prime p).

Add Ring loop_ring : (Zmod.ring_theory p).

Lemma fsum_app (l1 l2 : list (Zmod p)) :
  fsum (l1 ++ l2) = (fsum l1 + fsum l2)%Zmod.
Proof.
  induction l1 as [|x l1 IH]; simpl.
  - ring.
  - rewrite IH. ring.
Qed.

Lemma fsum_seq_S (t : nat -> Zmod p) (k : nat) :
  fsum (map t (seq 0 (S k))) = (fsum (map t (seq 0 k)) + t k)%Zmod.
Proof. rewrite seq_S, map_app, fsum_app. simpl. ring. Qed.

Lemma fsum_ext (t t' : nat -> Zmod p) (a n : nat) :
  (forall i, (a <= i < a + n)%nat -> t i = t' i) ->
  fsum (map t (seq a n)) = fsum (map t' (seq a n)).
Proof.
  revert a. induction n as [|n IH]; intros a H; simpl; [reflexivity|].
  rewrite H by lia. f_equal. apply IH. intros i Hi. apply H. lia.
Qed.

(** A sum whose terms vanish except at position [k] is the term at [k], or
    0 when [k] is not among the positions summed. *)
Lemma fsum_indicator (v : Zmod p) (k a n : nat) :
  fsum (map (fun i => if decide (i = k) then v else 0%Zmod) (seq a n))
  = if decide (a <= k < a + n)%nat then v else 0%Zmod.
Proof.
  revert a. induction n as [|n IH]; intros a; simpl.
  - destruct (decide (a <= k < a + 0)%nat); [lia | reflexivity].
  - rewrite IH.
    destruct (decide (a = k)), (decide (S a <= k < S a + n)%nat),
             (decide (a <= k < a + S n)%nat); try lia; ring.
Qed.

(** The selector loop: it never fails, and position [i] holds the output of
    [IsEqual] on [j] and the constant [i]. *)
Lemma selectors_run (n : nat) (j : Zmod p) :
  exists sel eq, selectors n j = Ok (sel, eq) /\
    length sel = n /\ length eq = n /\
    forall i, (i < n)%nat ->
      IsEqual j (const i) = Ok (eq !!! i) /\
      sel !!! i = ieq_out (eq !!! i) /\
      ieq_in0 (eq !!! i) = j /\ ieq_in1 (eq !!! i) = const i /\
      all_hold (IsEqual_constraints (eq !!! i)) = true /\
      sel !!! i = if decide (j = const i) then 1%Zmod else 0%Zmod.
Proof.
  unfold selectors.
  pose (P := fun (i : nat) (s : list (Zmod p) * list (IsEqual_signals p)) =>
    length s.1 = n /\ length s.2 = n /\
    forall k, (k < i)%nat ->
      IsEqual j (const k) = Ok (s.2 !!! k) /\
      s.1 !!! k = ieq_out (s.2 !!! k) /\
      ieq_in0 (s.2 !!! k) = j /\ ieq_in1 (s.2 !!! k) = const k /\
      all_hold (IsEqual_constraints (s.2 !!! k)) = true /\
      s.1 !!! k = if decide (j = const k) then 1%Zmod else 0%Zmod).
  destruct (for_loop_invariant P
    (fun i '(sel, eq) =>
       e ← IsEqual j (const i);
       Ok (<[i := ieq_out e]> sel, <[i := e]> eq)) n 0
    (replicate n 0%Zmod, replicate n inhabitant)) as ([sel eq] & Hrun & Hl1 & Hl2 & H).
  - unfold P. simpl. rewrite !length_replicate.
    split; [reflexivity|]. split; [reflexivity|]. intros k Hk. lia.
  - intros i [sel eq] Hi (Hl1 & Hl2 & H). simpl in Hl1, Hl2, H.
    destruct (IsEqual_run p_prime j (const i)) as (e & He & Hi0 & Hi1 & Hout & Hc).
    rewrite He. simpl. eexists. split; [reflexivity|].
    unfold P. simpl. rewrite !length_insert. split; [exact Hl1|]. split; [exact Hl2|].
    intros k Hk. destruct (decide (k = i)) as [->|Hne].
    + rewrite !list_lookup_total_insert_eq by lia. auto 10.
    + rewrite !list_lookup_total_insert_ne by lia. apply H. lia.
  - exists sel, eq. simpl in *. auto.
Qed.

(** Both running sums are instances of one loop over a term [t i]: cell
    [k] ends up holding the sum of the first [k] terms. *)
Lemma running_sum_run (t : nat -> Zmod p) (n : nat) :
  exists a,
    for_loop 0 n
      (fun i a => Ok (<[(i + 1)%nat := (a !!! i + t i)%Zmod]> a))
      (<[0%nat := 0%Zmod]> (replicate (n + 1) 0%Zmod)) = Ok a /\
    length a = (n + 1)%nat /\
    forall k, (k <= n)%nat -> a !!! k = fsum (map t (seq 0 k)).
Proof.
  pose (P := fun (i : nat) (a : list (Zmod p)) =>
    length a = (n + 1)%nat /\
    forall k, (k <= i)%nat -> a !!! k = fsum (map t (seq 0 k))).
  destruct (for_loop_invariant P
    (fun i a => Ok (<[(i + 1)%nat := (a !!! i + t i)%Zmod]> a)) n 0
    (<[0%nat := 0%Zmod]> (replicate (n + 1) 0%Zmod))) as (a & Hrun & Hl & H).
  - unfold P. rewrite length_insert, length_replicate. split; [reflexivity|].
    intros k Hk. replace k with 0%nat by lia.
    rewrite list_lookup_total_insert_eq by (rewrite length_replicate; lia). reflexivity.
  - intros i a Hi (Hl & H). eexists. split; [reflexivity|].
    unfold P. rewrite length_insert. split; [exact Hl|].
    intros k Hk. destruct (decide (k = S i)) as [->|Hne].
    + replace (i + 1)%nat with (S i) by lia.
      rewrite list_lookup_total_insert_eq by lia.
      rewrite fsum_seq_S, H by lia. reflexivity.
    + rewrite list_lookup_total_insert_ne by lia. apply H. lia.
  - exists a. simpl in *. auto.
Qed.

(** The same closed form follows from the constraints alone. *)
Lemma running_sum_sound (t : nat -> Zmod p) (n : nat) (a : list (Zmod p)) :
  a !!! 0%nat = 0%Zmod ->
  (forall i, (i < n)%nat -> a !!! (i + 1)%nat = (a !!! i + t i)%Zmod) ->
  forall k, (k <= n)%nat -> a !!! k = fsum (map t (seq 0 k)).
Proof.
  intros H0 Hstep k. induction k as [|k IH]; intros Hk.
  - exact H0.
  - rewrite fsum_seq_S, <- IH by lia.
    replace (S k) with (k + 1)%nat by lia. apply Hstep. lia.
Qed.

Lemma wire_hashes_run (n : nat) (hashes : list (Zmod p)) :
  length hashes = n -> wire_hashes n hashes = Ok hashes.
Proof.
  intros Hlen. unfold wire_hashes.
  pose (P := fun (i : nat) (c : list (Zmod p)) =>
    length c = n /\ forall k, (k < i)%nat -> c !!! k = hashes !!! k).
  destruct (for_loop_invariant P
    (fun i c => Ok (<[i := hashes !!! i]> c)) n 0 (replicate n 0%Zmod))
    as (c & Hrun & Hl & H).
  - unfold P. rewrite length_replicate. split; [reflexivity | lia].
  - intros i c Hi (Hl & H). eexists. split; [reflexivity|].
    unfold P. rewrite length_insert. split; [exact Hl|].
    intros k Hk. destruct (decide (k = i)) as [->|Hne].
    + rewrite list_lookup_total_insert_eq by lia. reflexivity.
    + rewrite list_lookup_total_insert_ne by lia. apply H. lia.
  - rewrite Hrun. f_equal. simpl in H.
    apply list_eq_same_length with n; try assumption.
    intros i x y Hi Hx Hy.
    pose proof (H i Hi) as E.
    rewrite !list_lookup_total_alt, Hx, Hy in E. exact E.
Qed.

End Loop_facts.

(** ** One-hot selection *)

Section Selection_facts.

Context {p : Z} (p_prime : Z.prime p).

Add Ring selection_ring : (Zmod.ring_theory p).

Lemma to_Z_bound (j : Zmod p) : 0 <= Zmod.to_Z j < p.
Proof. apply Zmod.unsigned_pos_bound. pose proof (Z.prime_ge_2 _ p_prime). lia. Qed.

Lemma const_position (j : Zmod p) : const (position j) = j.
Proof.
  unfold const, position. pose proof (to_Z_bound j).
  rewrite Z2Nat.id by lia. apply Zmod.of_Z_unsigned.
Qed.

Lemma position_const (i : nat) : Z.of_nat i < p -> position (@const p i) = i.
Proof.
  intros Hi. unfold const, position.
  rewrite Zmod.unsigned_of_Z, Z.mod_small by lia. apply Nat2Z.id.
Qed.

(** Below the characteristic, [j] equals the constant [i] exactly when [i]
    is the position [j] designates. *)
Lemma eq_const_iff (j : Zmod p) (i : nat) :
  Z.of_nat i < p -> j = const i <-> i = position j.
Proof.
  intros Hi. split.
  - intros ->. symmetry. apply position_const, Hi.
  - intros ->. symmetry. apply const_position.
Qed.

(** The vector the selector loop computes is the indicator of [position j]. *)
Lemma indicator_selectors (n : nat) (j : Zmod p) (sel : list (Zmod p)) :
  Z.of_nat n <= p ->
  (forall i, (i < n)%nat ->
     sel !!! i = if decide (j = const i) then 1%Zmod else 0%Zmod) ->
  forall i, (i < n)%nat ->
    sel !!! i = if decide (i = position j) then 1%Zmod else 0%Zmod.
Proof.
  intros Hn H i Hi. rewrite (H i Hi).
  pose proof (eq_const_iff j i ltac:(lia)) as E.
  destruct (decide (j = const i)), (decide (i = position j)); tauto.
Qed.

Lemma indicator_sum (n k : nat) (sel : list (Zmod p)) :
  (forall i, (i < n)%nat ->
     sel !!! i = if decide (i = k) then 1%Zmod else 0%Zmod) ->
  fsum (map (fun i => sel !!! i) (seq 0 n))
  = if decide (k < n)%nat then 1%Zmod else 0%Zmod.
Proof.
  intros H.
  rewrite (fsum_ext _ (fun i => if decide (i = k) then 1%Zmod else 0%Zmod))
    by (intros i Hi; apply H; lia).
  rewrite fsum_indicator.
  destruct (decide (0 <= k < 0 + n)%nat), (decide (k < n)%nat); try lia; reflexivity.
Qed.

Lemma indicator_select (n k : nat) (sel hashes : list (Zmod p)) :
  (forall i, (i < n)%nat ->
     sel !!! i = if decide (i = k) then 1%Zmod else 0%Zmod) ->
  fsum (map (fun i => (sel !!! i * hashes !!! i)%Zmod) (seq 0 n))
  = if decide (k < n)%nat then hashes !!! k else 0%Zmod.
Proof.
  intros H.
  rewrite (fsum_ext _ (fun i => if decide (i = k) then hashes !!! k else 0%Zmod)).
  - rewrite fsum_indicator.
    destruct (decide (0 <= k < 0 + n)%nat), (decide (k < n)%nat); try lia; reflexivity.
  - intros i Hi. rewrite H by lia. destruct (decide (i = k)) as [->|]; ring.
Qed.

End Selection_facts.

(** ** The templates *)

Section Template_facts.

Context {p : Z} (p_prime : Z.prime p) (Poseidon : list (Zmod p) -> Zmod p).

Lemma stages_run (n : nat) (j : Zmod p) (hashes : list (Zmod p)) :
  exists sel eq sumSel selectedHash, stages n j hashes sel eq sumSel selectedHash.
Proof.
  destruct (selectors_run p_prime n j) as (sel & eq & Hs & Hl1 & Hl2 & Heq).
  destruct (running_sum_run (fun i => sel !!! i) n) as (sumSel & Hsum & Hl3 & Hsum').
  destruct (running_sum_run (fun i => (sel !!! i * hashes !!! i)%Zmod) n)
    as (selectedHash & Hsh & Hl4 & Hsh').
  exists sel, eq, sumSel, selectedHash. split; auto.
Qed.

(** With the list no longer than the characteristic, the final cells of the
    two sums are determined by the position [j] designates. *)
Lemma stages_final (n : nat) (j : Zmod p) (hashes sel : list (Zmod p))
    (eq : list (IsEqual_signals p)) (sumSel selectedHash : list (Zmod p)) :
  Z.of_nat n <= p ->
  stages n j hashes sel eq sumSel selectedHash ->
  (forall i, (i < n)%nat ->
     sel !!! i = if decide (i = position j) then 1%Zmod else 0%Zmod) /\
  sumSel !!! n = (if decide (position j < n)%nat then 1%Zmod else 0%Zmod) /\
  selectedHash !!! n
  = (if decide (position j < n)%nat then hashes !!! position j else 0%Zmod).
Proof.
  intros Hn St.
  assert (Hsel : forall i, (i < n)%nat ->
     sel !!! i = if decide (i = position j) then 1%Zmod else 0%Zmod).
  { apply (indicator_selectors p_prime n j sel Hn).
    intros i Hi. apply (st_eq _ _ _ _ _ _ _ St i Hi). }
  split; [exact Hsel|]. split.
  - rewrite (st_sumSel _ _ _ _ _ _ _ St n) by lia. apply indicator_sum, Hsel.
  - rewrite (st_selectedHash _ _ _ _ _ _ _ St n) by lia.
    apply indicator_select, Hsel.
Qed.

(** The outcome of the witness computation of [HashListCheckInternal]. *)
Lemma HashListCheckInternal_outcome (n : nat) (r j : Zmod p)
    (hashes sel : list (Zmod p)) (eq : list (IsEqual_signals p))
    (sumSel selectedHash : list (Zmod p)) :
  Z.of_nat n <= p ->
  stages n j hashes sel eq sumSel selectedHash ->
  HashListCheckInternal Poseidon n r j hashes =
    if decide (position j < n)%nat then
      if decide (Poseidon [r] = hashes !!! position j) then
        Ok {| c_r := r; c_j := j; c_hashes := hashes; c_ok := 1%Zmod;
              c_h := {| pos_inputs := [r]; pos_out := Poseidon [r] |};
              c_hr := Poseidon [r]; c_sel := sel; c_eq := eq;
              c_sumSel := sumSel; c_selectedHash := selectedHash |}
      else Err (AssertFailed "HashListCheckInternal" "hr === selectedHash[n]")
    else Err (AssertFailed "HashListCheckInternal" "sumSel[n] === 1").
Proof.
  intros Hn St. destruct (stages_final n j hashes sel eq sumSel selectedHash Hn St)
    as (_ & Hsum & Hsh).
  unfold HashListCheckInternal, Poseidon_component. simpl.
  rewrite (st_selectors _ _ _ _ _ _ _ St). simpl.
  rewrite (st_sum_selectors _ _ _ _ _ _ _ St). simpl.
  rewrite Hsum. destruct (decide (position j < n)%nat) as [Hj|Hj].
  - rewrite Zmod.eqb_refl. simpl.
    rewrite (st_select_hash _ _ _ _ _ _ _ St). simpl. rewrite Hsh.
    rewrite (eqb_decide (Poseidon [r])).
    destruct (decide (Poseidon [r] = hashes !!! position j)) as [E|E].
    + rewrite bool_decide_eq_true_2 by exact E. reflexivity.
    + rewrite bool_decide_eq_false_2 by exact E. reflexivity.
  - rewrite (eqb_decide 0%Zmod 1%Zmod), bool_decide_eq_false_2; [reflexivity|].
    intros E. apply (F_one_neq_zero p_prime). symmetry. exact E.
Qed.

End Template_facts.

Section Constraint_facts.

Context {p : Z} (p_prime : Z.prime p) (Poseidon : list (Zmod p) -> Zmod p).

Lemma selector_block_iff (e : IsEqual_signals p) (j s : Zmod p) (i : nat) :
  all_hold ([ (ieq_in0 e, j); (ieq_in1 e, const i) ]
            ++ IsEqual_constraints e ++ [ (s, ieq_out e) ]) = true <->
  ieq_in0 e = j /\ ieq_in1 e = const i /\
  all_hold (IsEqual_constraints e) = true /\ s = ieq_out e.
Proof.
  rewrite !all_hold_app, !all_hold_cons. cbn [fst snd].
  pose proof (@all_hold_nil p). tauto.
Qed.

(** The constraint system of [HashListCheckInternal], equation by equation. *)
Lemma HashListCheckInternal_satisfied_iff (n : nat)
    (c : HashListCheckInternal_signals p) :
  HashListCheckInternal_satisfied Poseidon n c = true <->
  (length (pos_inputs (c_h c)) = 1%nat /\ length (c_hashes c) = n /\
   length (c_sel c) = n /\ length (c_eq c) = n /\
   length (c_sumSel c) = (n + 1)%nat /\ length (c_selectedHash c) = (n + 1)%nat) /\
  pos_inputs (c_h c) !!! 0%nat = c_r c /\
  pos_out (c_h c) = Poseidon (pos_inputs (c_h c)) /\
  c_hr c = pos_out (c_h c) /\
  (forall i, (i < n)%nat ->
     ieq_in0 (c_eq c !!! i) = c_j c /\
     ieq_in1 (c_eq c !!! i) = const i /\
     all_hold (IsEqual_constraints (c_eq c !!! i)) = true /\
     c_sel c !!! i = ieq_out (c_eq c !!! i)) /\
  c_sumSel c !!! 0%nat = 0%Zmod /\
  (forall i, (i < n)%nat ->
     c_sumSel c !!! (i + 1)%nat = (c_sumSel c !!! i + c_sel c !!! i)%Zmod) /\
  c_sumSel c !!! n = 1%Zmod /\
  c_selectedHash c !!! 0%nat = 0%Zmod /\
  (forall i, (i < n)%nat ->
     c_selectedHash c !!! (i + 1)%nat
     = (c_selectedHash c !!! i + c_sel c !!! i * c_hashes c !!! i)%Zmod) /\
  c_hr c = c_selectedHash c !!! n /\
  c_ok c = 1%Zmod.
Proof.
  unfold HashListCheckInternal_satisfied, HashListCheckInternal_shape,
    HashListCheckInternal_constraints, Poseidon_constraints.
  rewrite !andb_true_iff, !Nat.eqb_eq.
  rewrite !all_hold_app, !all_hold_cons, !all_hold_map_seq, all_hold_flat_map_seq.
  setoid_rewrite selector_block_iff. cbn [fst snd].
  pose proof (@all_hold_nil p). tauto.
Qed.

(** The selector sum of any assignment that satisfies the constraints of
    lines 26-38, whether or not it satisfies [sumSel[n] === 1]: it is 1 when
    the index designates a position of the list, and 0 otherwise. *)
Lemma selector_sum_sound (n : nat) (c : HashListCheckInternal_signals p) :
  Z.of_nat n <= p ->
  (forall i, (i < n)%nat ->
     ieq_in0 (c_eq c !!! i) = c_j c /\
     ieq_in1 (c_eq c !!! i) = const i /\
     all_hold (IsEqual_constraints (c_eq c !!! i)) = true /\
     c_sel c !!! i = ieq_out (c_eq c !!! i)) ->
  c_sumSel c !!! 0%nat = 0%Zmod ->
  (forall i, (i < n)%nat ->
     c_sumSel c !!! (i + 1)%nat = (c_sumSel c !!! i + c_sel c !!! i)%Zmod) ->
  (forall i, (i < n)%nat ->
     c_sel c !!! i = if decide (i = position (c_j c)) then 1%Zmod else 0%Zmod) /\
  c_sumSel c !!! n = if decide (position (c_j c) < n)%nat then 1%Zmod else 0%Zmod.
Proof.
  intros Hn Heq Hs0 Hs.
  assert (Hsel : forall i, (i < n)%nat ->
     c_sel c !!! i = if decide (i = position (c_j c)) then 1%Zmod else 0%Zmod).
  { apply (indicator_selectors p_prime n (c_j c) (c_sel c) Hn).
    intros i Hi. destruct (Heq i Hi) as (E0 & E1 & Hc & Es).
    rewrite Es, (IsEqual_sound p_prime _ Hc), E0, E1. reflexivity. }
  split; [exact Hsel|].
  rewrite (running_sum_sound (fun i => c_sel c !!! i) n (c_sumSel c) Hs0 Hs n)
    by lia.
  apply indicator_sum, Hsel.
Qed.

(** Soundness of the constraint system: an assignment that satisfies it has
    its index inside the list, a one-hot selector vector with the 1 at that
    position, and a secret that hashes to the entry there. *)
Lemma HashListCheckInternal_sound (n : nat) (c : HashListCheckInternal_signals p) :
  Z.of_nat n <= p ->
  HashListCheckInternal_satisfied Poseidon n c = true ->
  (position (c_j c) < n)%nat /\
  one_hot n (c_sel c) (position (c_j c)) /\
  c_sumSel c !!! n = fsum (map (fun i => c_sel c !!! i) (seq 0 n)) /\
  c_selectedHash c !!! n = c_hashes c !!! position (c_j c) /\
  Poseidon [c_r c] = c_hashes c !!! position (c_j c) /\
  c_ok c = 1%Zmod.
Proof.
  intros Hn Hsat. apply HashListCheckInternal_satisfied_iff in Hsat
    as ((Hl0 & Hl1 & Hl2 & Hl3 & Hl4 & Hl5) & Hin & Hout & Hhr & Heq
        & Hs0 & Hs & Hsn & Hh0 & Hh & Hhn & Hok).
  destruct (selector_sum_sound n c Hn Heq Hs0 Hs) as (Hsel & Esum').
  pose proof (running_sum_sound (fun i => c_sel c !!! i) n (c_sumSel c) Hs0 Hs n
                ltac:(lia)) as Esum.
  pose proof (running_sum_sound (fun i => (c_sel c !!! i * c_hashes c !!! i)%Zmod)
                n (c_selectedHash c) Hh0 Hh n ltac:(lia)) as Esh.
  rewrite (indicator_select n _ _ _ Hsel) in Esh.
  assert (Hj : (position (c_j c) < n)%nat).
  { rewrite Hsn in Esum'.
    destruct (decide (position (c_j c) < n)%nat) as [Hj|Hj]; [exact Hj|].
    exfalso. exact (F_one_neq_zero p_prime Esum'). }
  destruct (decide (position (c_j c) < n)%nat) as [_|]; [|contradiction].
  split; [exact Hj|]. split; [split; assumption|]. split; [exact Esum|].
  split; [exact Esh|]. split; [|exact Hok].
  destruct (pos_inputs (c_h c)) as [|x [|y l]] eqn:Ein; try discriminate.
  simpl in Hin. subst x. rewrite <- Hout, <- Hhr, Hhn. exact Esh.
Qed.

(** The assignment the loops compute satisfies every constraint as soon as
    the two asserted equations hold. *)
Lemma stages_satisfied (n : nat) (r j : Zmod p) (hashes sel : list (Zmod p))
    (eq : list (IsEqual_signals p)) (sumSel selectedHash : list (Zmod p)) :
  length hashes = n ->
  stages n j hashes sel eq sumSel selectedHash ->
  sumSel !!! n = 1%Zmod ->
  Poseidon [r] = selectedHash !!! n ->
  HashListCheckInternal_satisfied Poseidon n
    {| c_r := r; c_j := j; c_hashes := hashes; c_ok := 1%Zmod;
       c_h := {| pos_inputs := [r]; pos_out := Poseidon [r] |};
       c_hr := Poseidon [r]; c_sel := sel; c_eq := eq;
       c_sumSel := sumSel; c_selectedHash := selectedHash |} = true.
Proof.
  intros Hlen St Hsum Hhash. apply HashListCheckInternal_satisfied_iff. simpl.
  destruct St as [_ _ _ Hl1 Hl2 Hl3 Hl4 Heq Hs Hh].
  repeat split; auto.
  - apply (Heq i H).
  - apply (Heq i H).
  - apply (Heq i H).
  - apply (Heq i H).
  - apply (Hs 0%nat). lia.
  - intros i Hi. replace (i + 1)%nat with (S i) by lia.
    rewrite (Hs (S i)), (Hs i), fsum_seq_S by lia. reflexivity.
  - apply (Hh 0%nat). lia.
  - intros i Hi. replace (i + 1)%nat with (S i) by lia.
    rewrite (Hh (S i)), (Hh i), fsum_seq_S by lia. reflexivity.
Qed.

Lemma wire_hashes_total (n : nat) (hashes : list (Zmod p)) :
  exists c_hashes, wire_hashes n hashes = Ok c_hashes.
Proof.
  unfold wire_hashes.
  destruct (for_loop_invariant (fun _ _ => True)
    (fun i c => Ok (<[i := hashes !!! i]> c)) n 0 (replicate n (0%Zmod : Zmod p)))
    as (c & Hrun & _); [exact I | | eauto].
  intros i c _ _. eexists. split; [reflexivity | exact I].
Qed.

(** The constraint system of [Main]: the wiring, then the component's. *)
Lemma Main_satisfied_iff (n : nat) (m : Main_signals p) :
  Main_satisfied Poseidon n m = true <->
  length (m_hashes m) = n /\
  (forall i, (i < n)%nat -> c_hashes (m_c m) !!! i = m_hashes m !!! i) /\
  c_r (m_c m) = m_r m /\ c_j (m_c m) = m_j m /\
  HashListCheckInternal_satisfied Poseidon n (m_c m) = true /\
  m_ok m = c_ok (m_c m).
Proof.
  unfold Main_satisfied, Main_shape, Main_constraints, HashListCheckInternal_satisfied.
  rewrite !andb_true_iff, !Nat.eqb_eq.
  rewrite !all_hold_app, !all_hold_cons, !all_hold_map_seq. cbn [fst snd].
  pose proof (@all_hold_nil p). tauto.
Qed.

Lemma Main_satisfied_hashes (n : nat) (m : Main_signals p) :
  Main_satisfied Poseidon n m = true -> c_hashes (m_c m) = m_hashes m.
Proof.
  intros Hsat. apply Main_satisfied_iff in Hsat as (Hl & Hw & _ & _ & Hc & _).
  apply HashListCheckInternal_satisfied_iff in Hc as ((_ & Hl' & _) & _).
  apply list_eq_same_length with n; try assumption.
  intros i x y Hi Hx Hy. pose proof (Hw i Hi) as E.
  rewrite !list_lookup_total_alt, Hx, Hy in E. exact E.
Qed.

End Constraint_facts.

(** ** Uniqueness of the satisfying assignment *)

Section Uniqueness.

Context {p : Z} (p_prime : Z.prime p) (Poseidon : list (Zmod p) -> Zmod p).

Add Ring uniqueness_ring : (Zmod.ring_theory p).

Lemma lookup_total_ext {A : Type} `{Inhabited A} (n : nat) (l l' : list A) :
  length l = n -> length l' = n ->
  (forall i, (i < n)%nat -> l !!! i = l' !!! i) -> l = l'.
Proof.
  intros Hl Hl' Hi. apply list_eq_same_length with n; try assumption.
  intros i x y Hlt Hx Hy. pose proof (Hi i Hlt) as E.
  rewrite !list_lookup_total_alt, Hx, Hy in E. exact E.
Qed.

(** The constraints of [IsZero] fix the hint wherever [in] is not zero. *)
Lemma IsZero_hint_unique (z z' : IsZero_signals p) :
  all_hold (IsZero_constraints z) = true ->
  all_hold (IsZero_constraints z') = true ->
  isz_in z = isz_in z' -> isz_in z <> 0%Zmod ->
  isz_inv z = isz_inv z'.
Proof.
  intros Hz Hz' Ein Hnz.
  pose proof (IsZero_sound p_prime z Hz) as Ho.
  pose proof (IsZero_sound p_prime z' Hz') as Ho'.
  rewrite <- Ein in Ho'.
  destruct (decide (isz_in z = 0%Zmod)); [contradiction|].
  unfold IsZero_constraints in Hz, Hz'. rewrite !all_hold_cons in Hz, Hz'.
  cbn [fst snd] in Hz, Hz'. destruct Hz as (E & _). destruct Hz' as (E' & _).
  rewrite Ho in E. rewrite Ho', <- Ein in E'.
  apply (Zmod.mul_cancel_l_prime (isz_in z) _ _ p_prime Hnz).
  transitivity (1 - (- isz_in z * isz_inv z + 1))%Zmod; [ring|].
  rewrite <- E, E'. ring.
Qed.

Lemma IsEqual_constraints_iff (e : IsEqual_signals p) :
  all_hold (IsEqual_constraints e) = true <->
  isz_in (ieq_isz e) = (ieq_in1 e - ieq_in0 e)%Zmod /\
  all_hold (IsZero_constraints (ieq_isz e)) = true /\
  ieq_out e = isz_out (ieq_isz e).
Proof.
  unfold IsEqual_constraints. rewrite !all_hold_app, !all_hold_cons. cbn [fst snd].
  pose proof (@all_hold_nil p). tauto.
Qed.

(** The constraints leave no freedom but one: two satisfying assignments
    with the same list, secret and index agree on every signal except the
    inverse hint at the selected position, where [in] is 0 and any hint
    satisfies [IsZero]. *)
Lemma satisfying_assignment_unique (n : nat) (w w' : Main_signals p) :
  Z.of_nat n <= p ->
  Main_satisfied Poseidon n w = true ->
  Main_satisfied Poseidon n w' = true ->
  m_hashes w = m_hashes w' -> m_r w = m_r w' -> m_j w = m_j w' ->
  agree n (position (m_j w)) w w'.
Proof.
  intros Hn Hsat Hsat' Eh Er Ej.
  pose proof (Main_satisfied_hashes Poseidon n w Hsat) as Hch.
  pose proof (Main_satisfied_hashes Poseidon n w' Hsat') as Hch'.
  apply Main_satisfied_iff in Hsat as (_ & _ & Hr & Hj & Hc & Hok).
  apply Main_satisfied_iff in Hsat' as (_ & _ & Hr' & Hj' & Hc' & Hok').
  pose proof (HashListCheckInternal_sound p_prime Poseidon n _ Hn Hc)
    as (Hlt & (_ & Hoh) & _ & _ & _ & Hcok).
  pose proof (HashListCheckInternal_sound p_prime Poseidon n _ Hn Hc')
    as (_ & (_ & Hoh') & _ & _ & _ & Hcok').
  apply HashListCheckInternal_satisfied_iff in Hc
    as ((Hl0 & Hl1 & Hl2 & Hl3 & Hl4 & Hl5) & Hin & Hout & Hhr & Heq
        & Hs0 & Hs & Hsn & Hh0 & Hh & Hhn & _).
  apply HashListCheckInternal_satisfied_iff in Hc'
    as ((Hl0' & Hl1' & Hl2' & Hl3' & Hl4' & Hl5') & Hin' & Hout' & Hhr' & Heq'
        & Hs0' & Hs' & Hsn' & Hh0' & Hh' & Hhn' & _).
  assert (Ecj : c_j (m_c w) = c_j (m_c w')) by congruence.
  assert (Ecr : c_r (m_c w) = c_r (m_c w')) by congruence.
  assert (Ech : c_hashes (m_c w) = c_hashes (m_c w')) by congruence.
  rewrite <- Ecj in Hoh'.
  assert (Esel : c_sel (m_c w) = c_sel (m_c w')).
  { apply (lookup_total_ext n); try assumption.
    intros i Hi. rewrite (Hoh i Hi), (Hoh' i Hi). reflexivity. }
  assert (Einp : pos_inputs (c_h (m_c w)) = pos_inputs (c_h (m_c w'))).
  { destruct (pos_inputs (c_h (m_c w))) as [|x [|? ?]]; try discriminate.
    destruct (pos_inputs (c_h (m_c w'))) as [|x' [|? ?]]; try discriminate.
    simpl in Hin, Hin'. congruence. }
  assert (Eh' : c_h (m_c w) = c_h (m_c w')).
  { destruct (c_h (m_c w)), (c_h (m_c w')). simpl in *. congruence. }
  assert (Esum : c_sumSel (m_c w) = c_sumSel (m_c w')).
  { apply (lookup_total_ext (n + 1)); try assumption.
    intros k Hk.
    rewrite (running_sum_sound (fun i => c_sel (m_c w) !!! i) n _ Hs0 Hs k) by lia.
    rewrite Esel in Hs |- *.
    rewrite (running_sum_sound (fun i => c_sel (m_c w') !!! i) n _ Hs0' Hs' k) by lia.
    reflexivity. }
  assert (Eacc : c_selectedHash (m_c w) = c_selectedHash (m_c w')).
  { apply (lookup_total_ext (n + 1)); try assumption.
    intros k Hk.
    rewrite (running_sum_sound
               (fun i => (c_sel (m_c w) !!! i * c_hashes (m_c w) !!! i)%Zmod)
               n _ Hh0 Hh k) by lia.
    rewrite (running_sum_sound
               (fun i => (c_sel (m_c w') !!! i * c_hashes (m_c w') !!! i)%Zmod)
               n _ Hh0' Hh' k) by lia.
    rewrite Esel, Ech. reflexivity. }
  unfold agree. repeat (split; [congruence|]).
  intros i Hi. destruct (Heq i Hi) as (E0 & E1 & Hci & Es).
  destruct (Heq' i Hi) as (E0' & E1' & Hci' & Es').
  apply IsEqual_constraints_iff in Hci as (Ezin & Hz & Ezout).
  apply IsEqual_constraints_iff in Hci' as (Ezin' & Hz' & Ezout').
  assert (Ein : isz_in (ieq_isz (c_eq (m_c w) !!! i))
                = isz_in (ieq_isz (c_eq (m_c w') !!! i))) by congruence.
  split; [congruence|]. split; [congruence|]. split; [congruence|].
  split; [exact Ein|]. split; [congruence|].
  intros Hne. apply (IsZero_hint_unique _ _ Hz Hz' Ein).
  rewrite Ezin, E0, E1, Hj. intros E.
  apply Hne. apply (eq_const_iff p_prime (m_j w) i ltac:(lia)).
  transitivity (const i - (const i - m_j w))%Zmod; [ring|]. rewrite E. ring.
Qed.
End Uniqueness.

(** * The circuit's claims *)

Section Circuit_claims.

Context {p : Z} (p_prime : Z.prime p) (Poseidon : list (Zmod p) -> Zmod p).

(** The outcome of [Main]'s witness computation on a list of the declared
    length. *)
Lemma Main_outcome (n : nat) (hashes : list (Zmod p)) (r j : Zmod p) :
  Z.of_nat n <= p ->
  length hashes = n ->
  (exists w,
     Main Poseidon n hashes r j = Ok w /\
     (position j < n)%nat /\ Poseidon [r] = hashes !!! position j /\
     Main_satisfied Poseidon n w = true /\
     m_hashes w = hashes /\ m_r w = r /\ m_j w = j /\ m_ok w = 1%Zmod) \/
  (Main Poseidon n hashes r j
     = Err (AssertFailed "HashListCheckInternal" "hr === selectedHash[n]") /\
   (position j < n)%nat /\ Poseidon [r] <> hashes !!! position j) \/
  (Main Poseidon n hashes r j
     = Err (AssertFailed "HashListCheckInternal" "sumSel[n] === 1") /\
   ~ (position j < n)%nat).
Proof.
  intros Hn Hlen. unfold Main. rewrite (wire_hashes_run n hashes Hlen). simpl.
  destruct (stages_run p_prime n j hashes) as (sel & eq & sumSel & selectedHash & St).
  rewrite (HashListCheckInternal_outcome p_prime Poseidon n r j _ _ _ _ _ Hn St).
  destruct (stages_final p_prime n j _ _ _ _ _ Hn St) as (_ & Hsum & Hsh).
  destruct (decide (position j < n)%nat) as [Hj|Hj].
  - destruct (decide (Poseidon [r] = hashes !!! position j)) as [E|E].
    + left. simpl. eexists. split; [reflexivity|]. simpl.
      repeat (split; [solve [auto]|]). split; [|auto].
      apply Main_satisfied_iff. simpl. repeat (split; [solve [auto]|]).
      split; [|reflexivity].
      apply (stages_satisfied Poseidon n r j hashes sel eq sumSel selectedHash);
        auto. congruence.
    + right. left. auto.
  - right. right. auto.
Qed.

(** C1 (completeness).  For every list of exactly [n] field elements (the
    circuit is instantiated at [n = 10]) and every index [j] that designates
    a position of the list, if the Poseidon hash of the secret [r] is the
    entry at that position then witness synthesis succeeds, the computed
    assignment satisfies every constraint of the gadget, and the public
    output is 1. *)
Theorem completeness (n : nat) (hashes : list (Zmod p)) (r j : Zmod p) :
  Z.of_nat n <= p ->
  length hashes = n ->
  (position j < n)%nat ->
  Poseidon [r] = hashes !!! position j ->
  exists w,
    Main Poseidon n hashes r j = Ok w /\
    Main_satisfied Poseidon n w = true /\
    m_ok w = 1%Zmod.
Proof.
  intros Hn Hlen Hj Hhash.
  destruct (Main_outcome n hashes r j Hn Hlen)
    as [(w & Hrun & _ & _ & Hsat & _ & _ & _ & Hok) | [(_ & _ & Hne) | (_ & Hout)]].
  - exists w. auto.
  - contradiction.
  - contradiction.
Qed.

(** C3 (soundness under tampering).  For every index [j] that designates a
    position of the list, if the hash of the secret differs from the entry
    at that position then witness synthesis fails, on the constraint
    [hr === selectedHash[n]]; and no assignment of the signals with these
    inputs satisfies the constraints. *)
Theorem soundness_under_tampering (n : nat) (hashes : list (Zmod p)) (r j : Zmod p) :
  Z.of_nat n <= p ->
  length hashes = n ->
  (position j < n)%nat ->
  Poseidon [r] <> hashes !!! position j ->
  Main Poseidon n hashes r j
    = Err (AssertFailed "HashListCheckInternal" "hr === selectedHash[n]") /\
  UnsatisfiableWitness (Main Poseidon n hashes r j) /\
  forall w, m_hashes w = hashes -> m_r w = r -> m_j w = j ->
    Main_satisfied Poseidon n w = false.
Proof.
  intros Hn Hlen Hj Hhash.
  assert (Hrun : Main Poseidon n hashes r j
    = Err (AssertFailed "HashListCheckInternal" "hr === selectedHash[n]")).
  { destruct (Main_outcome n hashes r j Hn Hlen)
      as [(w & _ & _ & E & _) | [(Hrun & _) | (_ & Hout)]];
      [contradiction | exact Hrun | contradiction]. }
  split; [exact Hrun|]. split; [rewrite Hrun; unfold UnsatisfiableWitness; eauto|].
  intros w Hw Hr Hwj. destruct (Main_satisfied Poseidon n w) eqn:Hsat; [|reflexivity].
  exfalso. apply Hhash.
  pose proof (Main_satisfied_hashes Poseidon n w Hsat) as Eh.
  apply Main_satisfied_iff in Hsat as (_ & _ & Er & Ej & Hc & _).
  apply (HashListCheckInternal_sound p_prime Poseidon n _ Hn) in Hc
    as (_ & _ & _ & _ & E & _).
  rewrite Er, Ej, Eh, Hr, Hwj, Hw in E. exact E.
Qed.

(** C2 (out-of-range rejection).  For every field value of the index [j]
    that is none of the integers [0..n-1], every selector entry is 0, the
    selector sum is 0, the constraint [sumSel[n] === 1] is violated and
    witness synthesis fails on it.  The same holds of any assignment: the
    constraints of the selector and sum loops alone force the selector sum
    to 0, never 1, so no assignment with such an index satisfies the
    constraints. *)
Theorem out_of_range_rejection (n : nat) (hashes : list (Zmod p)) (r j : Zmod p) :
  Z.of_nat n <= p ->
  (n <= position j)%nat ->
  (exists sel eq sumSel,
     selectors n j = Ok (sel, eq) /\
     (forall i, (i < n)%nat -> sel !!! i = 0%Zmod) /\
     sum_selectors n sel = Ok sumSel /\
     sumSel !!! n = 0%Zmod /\ sumSel !!! n <> 1%Zmod) /\
  Main Poseidon n hashes r j
    = Err (AssertFailed "HashListCheckInternal" "sumSel[n] === 1") /\
  UnsatisfiableWitness (Main Poseidon n hashes r j) /\
  (forall c : HashListCheckInternal_signals p,
     c_j c = j ->
     (forall i, (i < n)%nat ->
        ieq_in0 (c_eq c !!! i) = c_j c /\
        ieq_in1 (c_eq c !!! i) = const i /\
        all_hold (IsEqual_constraints (c_eq c !!! i)) = true /\
        c_sel c !!! i = ieq_out (c_eq c !!! i)) ->
     c_sumSel c !!! 0%nat = 0%Zmod ->
     (forall i, (i < n)%nat ->
        c_sumSel c !!! (i + 1)%nat = (c_sumSel c !!! i + c_sel c !!! i)%Zmod) ->
     c_sumSel c !!! n = 0%Zmod /\ c_sumSel c !!! n <> 1%Zmod) /\
  forall w, m_j w = j -> Main_satisfied Poseidon n w = false.
Proof.
  intros Hn Hj.
  assert (Hrun : Main Poseidon n hashes r j
    = Err (AssertFailed "HashListCheckInternal" "sumSel[n] === 1")).
  { unfold Main. destruct (wire_hashes_total n hashes) as (c_hashes & ->). simpl.
    destruct (stages_run p_prime n j c_hashes) as (sel & eq & sumSel & selectedHash & St).
    rewrite (HashListCheckInternal_outcome p_prime Poseidon n r j _ _ _ _ _ Hn St).
    destruct (decide (position j < n)%nat); [lia | reflexivity]. }
  split; [|split; [exact Hrun|split; [|split]]].
  - destruct (stages_run p_prime n j hashes) as (sel & eq & sumSel & selectedHash & St).
    destruct (stages_final p_prime n j _ _ _ _ _ Hn St) as (Hsel & Hsum & _).
    exists sel, eq, sumSel. split; [apply St|].
    assert (E0 : sumSel !!! n = 0%Zmod).
    { rewrite Hsum. destruct (decide (position j < n)%nat); [lia | reflexivity]. }
    split; [|split; [apply St|split; [exact E0|]]].
    + intros i Hi. rewrite (Hsel i Hi).
      destruct (decide (i = position j)); [lia | reflexivity].
    + rewrite E0. intros E. apply (F_one_neq_zero p_prime). symmetry. exact E.
  - rewrite Hrun. unfold UnsatisfiableWitness. eauto.
  - intros c Hc Heq Hs0 Hs.
    destruct (selector_sum_sound p_prime n c Hn Heq Hs0 Hs) as (_ & E).
    rewrite Hc in E. destruct (decide (position j < n)%nat); [lia|].
    split; [exact E|]. rewrite E. intros E1.
    apply (F_one_neq_zero p_prime). symmetry. exact E1.
  - intros w Hw. destruct (Main_satisfied Poseidon n w) eqn:Hsat; [|reflexivity].
    exfalso. apply Main_satisfied_iff in Hsat as (_ & _ & _ & Ej & Hc & _).
    apply (HashListCheckInternal_sound p_prime Poseidon n _ Hn) in Hc as (Hlt & _).
    rewrite Ej, Hw in Hlt. lia.
Qed.

(** A successful synthesis returns an assignment that satisfies the
    constraints. *)
Lemma Main_Ok_satisfied (n : nat) (hashes : list (Zmod p)) (r j : Zmod p)
    (w : Main_signals p) :
  Z.of_nat n <= p ->
  length hashes = n ->
  Main Poseidon n hashes r j = Ok w ->
  Main_satisfied Poseidon n w = true.
Proof.
  intros Hn Hlen Hrun.
  destruct (Main_outcome n hashes r j Hn Hlen)
    as [(w' & Hrun' & _ & _ & Hsat & _) | [(Hrun' & _) | (Hrun' & _)]];
    rewrite Hrun' in Hrun; [|discriminate..].
  injection Hrun as <-. exact Hsat.
Qed.

(** C4 (one-hot invariant).  In every assignment that satisfies all the
    constraints of the gadget, and so in every witness a successful
    synthesis returns, each of the [n] selector entries is 0 or 1, the entry
    at the position the index designates is 1, and every other entry is 0:
    exactly one entry is 1. *)
Theorem one_hot_invariant (n : nat) (w : Main_signals p) :
  Z.of_nat n <= p ->
  (Main_satisfied Poseidon n w = true \/
   exists hashes r j, length hashes = n /\ Main Poseidon n hashes r j = Ok w) ->
  length (c_sel (m_c w)) = n /\
  (forall i, (i < n)%nat ->
     c_sel (m_c w) !!! i = 0%Zmod \/ c_sel (m_c w) !!! i = 1%Zmod) /\
  (position (m_j w) < n)%nat /\
  c_sel (m_c w) !!! position (m_j w) = 1%Zmod /\
  (forall i, (i < n)%nat -> i <> position (m_j w) -> c_sel (m_c w) !!! i = 0%Zmod) /\
  (forall i, (i < n)%nat -> c_sel (m_c w) !!! i = 1%Zmod -> i = position (m_j w)).
Proof.
  intros Hn Hw.
  assert (Hsat : Main_satisfied Poseidon n w = true).
  { destruct Hw as [Hsat | (hashes & r & j & Hlen & Hrun)]; [exact Hsat|].
    exact (Main_Ok_satisfied n hashes r j w Hn Hlen Hrun). }
  apply Main_satisfied_iff in Hsat as (_ & _ & _ & Ej & Hc & _).
  pose proof Hc as Hc'.
  apply HashListCheckInternal_satisfied_iff in Hc' as ((_ & _ & Hl & _) & _).
  apply (HashListCheckInternal_sound p_prime Poseidon n _ Hn) in Hc
    as (Hlt & (_ & Hoh) & _).
  rewrite Ej in Hlt, Hoh.
  split; [exact Hl|]. split; [|split; [exact Hlt|split; [|split]]].
  - intros i Hi. rewrite (Hoh i Hi). destruct (decide (i = position (m_j w))); auto.
  - rewrite (Hoh _ Hlt). destruct (decide (position (m_j w) = position (m_j w)));
      [reflexivity | contradiction].
  - intros i Hi Hne. rewrite (Hoh i Hi).
    destruct (decide (i = position (m_j w))); [contradiction | reflexivity].
  - intros i Hi E. rewrite (Hoh i Hi) in E.
    destruct (decide (i = position (m_j w))) as [Eq|_]; [exact Eq|].
    exfalso. apply (F_one_neq_zero p_prime). symmetry. exact E.
Qed.

(** C6 (selector builder).  The selector loop never fails; for each
    position [i] below [n] the selector [sel[i]] is the output of the
    equality test [IsEqual] on [j] and the constant [i], and it is 1 if [j]
    equals [i] in the field and 0 otherwise. *)
Theorem selector_builder (n : nat) (j : Zmod p) :
  exists sel eq,
    selectors n j = Ok (sel, eq) /\
    length sel = n /\ length eq = n /\
    forall i, (i < n)%nat ->
      IsEqual j (const i) = Ok (eq !!! i) /\
      sel !!! i = ieq_out (eq !!! i) /\
      sel !!! i = if decide (j = const i) then 1%Zmod else 0%Zmod.
Proof.
  destruct (selectors_run p_prime n j) as (sel & eq & Hrun & Hl1 & Hl2 & H).
  exists sel, eq. repeat (split; [assumption|]).
  intros i Hi. destruct (H i Hi) as (H1 & H2 & _ & _ & _ & H3). auto.
Qed.

End Circuit_claims.

Section Circuit_claims_any_modulus.

Context {p : Z} (Poseidon : list (Zmod p) -> Zmod p).

(** C5 (selection accumulator).  The loop keeps the running sums
    [acc[0] = 0] and [acc[i+1] = acc[i] + sel[i] * list[i]] for [i] in
    [0..n-1]; and whenever the selector vector is one-hot with the 1 at
    position [k], the final accumulator [acc[n]] is exactly [list[k]].  The
    same holds of any array that satisfies the loop's constraints. *)
Theorem selection_accumulator (n : nat) (sel hashes : list (Zmod p)) :
  (exists acc,
     select_hash n sel hashes = Ok acc /\
     length acc = (n + 1)%nat /\
     acc !!! 0%nat = 0%Zmod /\
     (forall i, (i < n)%nat ->
        acc !!! (i + 1)%nat = (acc !!! i + sel !!! i * hashes !!! i)%Zmod) /\
     forall k, one_hot n sel k -> acc !!! n = hashes !!! k) /\
  (forall acc : list (Zmod p),
     acc !!! 0%nat = 0%Zmod ->
     (forall i, (i < n)%nat ->
        acc !!! (i + 1)%nat = (acc !!! i + sel !!! i * hashes !!! i)%Zmod) ->
     forall k, one_hot n sel k -> acc !!! n = hashes !!! k).
Proof.
  assert (Hsound : forall acc : list (Zmod p),
     acc !!! 0%nat = 0%Zmod ->
     (forall i, (i < n)%nat ->
        acc !!! (i + 1)%nat = (acc !!! i + sel !!! i * hashes !!! i)%Zmod) ->
     forall k, one_hot n sel k -> acc !!! n = hashes !!! k).
  { intros acc H0 Hstep k (Hk & Hoh).
    rewrite (running_sum_sound (fun i => (sel !!! i * hashes !!! i)%Zmod)
               n acc H0 Hstep n) by lia.
    rewrite (indicator_select n k sel hashes Hoh).
    destruct (decide (k < n)%nat); [reflexivity | lia]. }
  split; [|exact Hsound].
  destruct (running_sum_run (fun i => (sel !!! i * hashes !!! i)%Zmod) n)
    as (acc & Hrun & Hlen & Hacc).
  exists acc. split; [exact Hrun|]. split; [exact Hlen|].
  assert (H0 : acc !!! 0%nat = 0%Zmod) by (apply (Hacc 0%nat); lia).
  assert (Hstep : forall i, (i < n)%nat ->
     acc !!! (i + 1)%nat = (acc !!! i + sel !!! i * hashes !!! i)%Zmod).
  { intros i Hi. replace (i + 1)%nat with (S i) by lia.
    rewrite (Hacc (S i)), (Hacc i), fsum_seq_S by lia. reflexivity. }
  split; [exact H0|]. split; [exact Hstep|]. apply Hsound; assumption.
Qed.

Lemma HashListCheckInternal_Ok_ok (n : nat) (r j : Zmod p) (hashes : list (Zmod p))
    (c : HashListCheckInternal_signals p) :
  HashListCheckInternal Poseidon n r j hashes = Ok c -> c_ok c = 1%Zmod.
Proof.
  unfold HashListCheckInternal, Poseidon_component. simpl.
  destruct (selectors n j) as [[sel eq]|]; simpl; [|discriminate].
  destruct (sum_selectors n sel) as [sumSel|]; simpl; [|discriminate].
  destruct (assert _ _ _); simpl; [|discriminate].
  destruct (select_hash n sel hashes) as [selectedHash|]; simpl; [|discriminate].
  destruct (assert _ _ _); simpl; [|discriminate].
  intros [= <-]. reflexivity.
Qed.

(** C7 (public output).  The public output of every witness that synthesis
    returns is 1: the component assigns its [ok] the constant 1 and [Main]
    forwards it; and no assignment that satisfies the constraints gives the
    output any other value. *)
Theorem public_output_is_one (n : nat) (w : Main_signals p) :
  (exists hashes r j, Main Poseidon n hashes r j = Ok w) \/
  Main_satisfied Poseidon n w = true ->
  m_ok w = 1%Zmod /\ c_ok (m_c w) = 1%Zmod.
Proof.
  intros [(hashes & r & j & Hrun) | Hsat].
  - unfold Main in Hrun.
    destruct (wire_hashes n hashes) as [c_hashes|]; simpl in Hrun; [|discriminate].
    destruct (HashListCheckInternal Poseidon n r j c_hashes) as [c|] eqn:Hc;
      simpl in Hrun; [|discriminate].
    injection Hrun as <-. simpl.
    rewrite (HashListCheckInternal_Ok_ok n r j c_hashes c Hc). auto.
  - apply Main_satisfied_iff in Hsat as (_ & _ & _ & _ & Hc & Hok).
    apply HashListCheckInternal_satisfied_iff in Hc.
    destruct Hc as (_ & _ & _ & _ & _ & _ & _ & _ & _ & _ & _ & Hc).
    rewrite Hok. auto.
Qed.

End Circuit_claims_any_modulus.

Section Determinism_claim.

Context {p : Z} (p_prime : Z.prime p) (Poseidon : list (Zmod p) -> Zmod p).

Lemma IsZero_hint_iff (z : IsZero_signals p) :
  IsZero_hint z = true <->
  isz_inv z = if negb (Zmod.eqb (isz_in z) 0%Zmod)
              then Zmod.mdiv 1%Zmod (isz_in z) else 0%Zmod.
Proof. unfold IsZero_hint. rewrite eqb_decide. apply bool_decide_eq_true. Qed.

Lemma Main_hints_iff (n : nat) (m : Main_signals p) :
  Main_hints n m = true <->
  forall i, (i < n)%nat -> IsZero_hint (ieq_isz (c_eq (m_c m) !!! i)) = true.
Proof.
  unfold Main_hints. rewrite forallb_forall. split.
  - intros H i Hi. apply H, in_seq. lia.
  - intros H i Hi. apply in_seq in Hi. apply H. lia.
Qed.

(** The hint an equality test computes has the value its [<--] assigns. *)
Lemma IsEqual_Ok_hint (a b : Zmod p) (e : IsEqual_signals p) :
  IsEqual a b = Ok e -> IsZero_hint (ieq_isz e) = true.
Proof.
  unfold IsEqual, IsZero. cbv zeta.
  destruct (assert _ _ _); simpl; [|discriminate].
  intros [= <-]. apply IsZero_hint_iff. reflexivity.
Qed.

(** What a run of [Main] returns is a witness in the sense of
    [Main_witness]. *)
Lemma Main_Ok_witness (n : nat) (hashes : list (Zmod p)) (r j : Zmod p)
    (w : Main_signals p) :
  Z.of_nat n <= p ->
  length hashes = n ->
  Main Poseidon n hashes r j = Ok w ->
  Main_witness Poseidon n hashes r j w.
Proof.
  intros Hn Hlen Hrun.
  pose proof (Main_Ok_satisfied p_prime Poseidon n hashes r j w Hn Hlen Hrun) as Hsat.
  unfold Main in Hrun. rewrite (wire_hashes_run n hashes Hlen) in Hrun.
  simpl in Hrun.
  destruct (stages_run p_prime n j hashes) as (sel & eq & sumSel & selectedHash & St).
  rewrite (HashListCheckInternal_outcome p_prime Poseidon n r j _ _ _ _ _ Hn St)
    in Hrun.
  destruct (decide (position j < n)%nat); [|discriminate].
  destruct (decide (Poseidon [r] = hashes !!! position j)); [|discriminate].
  simpl in Hrun. injection Hrun as <-.
  unfold Main_witness. simpl in *. repeat (split; [reflexivity|]).
  split; [exact Hsat|]. apply Main_hints_iff. simpl. intros i Hi.
  destruct (st_eq _ _ _ _ _ _ _ St i Hi) as (Heq & _).
  exact (IsEqual_Ok_hint _ _ _ Heq).
Qed.

Lemma IsEqual_signals_eq (e e' : IsEqual_signals p) :
  ieq_in0 e = ieq_in0 e' -> ieq_in1 e = ieq_in1 e' -> ieq_out e = ieq_out e' ->
  isz_in (ieq_isz e) = isz_in (ieq_isz e') ->
  isz_out (ieq_isz e) = isz_out (ieq_isz e') ->
  isz_inv (ieq_isz e) = isz_inv (ieq_isz e') ->
  e = e'.
Proof.
  destruct e as [a b c [x y z]], e' as [a' b' c' [x' y' z']]. simpl.
  intros -> -> -> -> -> ->. reflexivity.
Qed.

(** On given inputs the program prescribes at most one witness. *)
Lemma Main_witness_unique (n : nat) (hashes : list (Zmod p)) (r j : Zmod p)
    (w w' : Main_signals p) :
  Z.of_nat n <= p ->
  Main_witness Poseidon n hashes r j w ->
  Main_witness Poseidon n hashes r j w' ->
  w = w'.
Proof.
  intros Hn (Eh & Er & Ej & Hsat & Hh) (Eh' & Er' & Ej' & Hsat' & Hh').
  pose proof (satisfying_assignment_unique p_prime Poseidon n w w' Hn Hsat Hsat'
                ltac:(congruence) ltac:(congruence) ltac:(congruence)) as Ha.
  assert (Hlen : length (c_eq (m_c w)) = n /\ length (c_eq (m_c w')) = n).
  { apply Main_satisfied_iff in Hsat as (_ & _ & _ & _ & Hc & _).
    apply Main_satisfied_iff in Hsat' as (_ & _ & _ & _ & Hc' & _).
    apply HashListCheckInternal_satisfied_iff in Hc as ((_ & _ & _ & Hl & _) & _).
    apply HashListCheckInternal_satisfied_iff in Hc' as ((_ & _ & _ & Hl' & _) & _).
    auto. }
  destruct Hlen as (Hl & Hl').
  assert (Eeq : c_eq (m_c w) = c_eq (m_c w')).
  { apply (lookup_total_ext n); [exact Hl | exact Hl' |]. intros i Hi.
    destruct Ha as (_ & _ & _ & _ & _ & _ & _ & _ & _ & _ & _ & _ & _ & _ & Ha).
    destruct (Ha i Hi) as (E0 & E1 & Eo & Ein & Eout & _).
    apply IsEqual_signals_eq; try assumption.
    pose proof (proj1 (Main_hints_iff n w) Hh i Hi) as Hi1.
    pose proof (proj1 (Main_hints_iff n w') Hh' i Hi) as Hi2.
    apply IsZero_hint_iff in Hi1, Hi2. rewrite Hi1, Hi2, Ein. reflexivity. }
  destruct Ha as (A1 & A2 & A3 & A4 & A5 & A6 & A7 & A8 & A9 & A10 & A11 & A12
                  & A13 & _).
  destruct w as [wh wr wj wok [cr cj ch cok chh chr csel ceq csum csh]].
  destruct w' as [wh' wr' wj' wok' [cr' cj' ch' cok' chh' chr' csel' ceq' csum' csh']].
  simpl in *. congruence.
Qed.

(** C9 (determinism).  On identical inputs (same secret, same index, same
    list) witness synthesis yields identical witnesses, signal for signal:
    the witness is fixed by the inputs and the program, not by the way it
    is computed.  What a run of [Main] returns carries the inputs,
    satisfies every [<==] and [===], and has every [<--] hint at its
    assigned value; any two assignments of which this holds on the same
    inputs are equal, the same canonical integers; and an assignment of
    which it holds is the one the run returns, so that no such assignment
    exists when the run fails. *)
Theorem determinism (n : nat) (hashes hashes' : list (Zmod p)) (r r' j j' : Zmod p) :
  Z.of_nat n <= p ->
  length hashes = n ->
  hashes = hashes' -> r = r' -> j = j' ->
  (forall w, Main Poseidon n hashes r j = Ok w ->
     Main_witness Poseidon n hashes r j w) /\
  (forall w w',
     Main_witness Poseidon n hashes r j w ->
     Main_witness Poseidon n hashes' r' j' w' ->
     w = w' /\
     Zmod.to_Z (m_ok w) = Zmod.to_Z (m_ok w') /\
     Zmod.to_Z <$> c_sel (m_c w) = Zmod.to_Z <$> c_sel (m_c w') /\
     Zmod.to_Z <$> c_sumSel (m_c w) = Zmod.to_Z <$> c_sumSel (m_c w') /\
     Zmod.to_Z <$> c_selectedHash (m_c w) = Zmod.to_Z <$> c_selectedHash (m_c w')) /\
  (forall w, Main_witness Poseidon n hashes r j w ->
     Main Poseidon n hashes' r' j' = Ok w).
Proof.
  intros Hn Hlen <- <- <-. split; [|split].
  - intros w. apply Main_Ok_witness; assumption.
  - intros w w' Hw Hw'.
    rewrite (Main_witness_unique n hashes r j w w' Hn Hw Hw'). auto.
  - intros w Hw.
    destruct (Main_outcome p_prime Poseidon n hashes r j Hn Hlen)
      as [(w0 & Hrun & _) | [(_ & Hj & Hne) | (_ & Hout)]].
    + rewrite Hrun. f_equal.
      apply (Main_witness_unique n hashes r j w0 w Hn); [|exact Hw].
      apply Main_Ok_witness; assumption.
    + exfalso. destruct Hw as (Eh & Er & Ej & Hsat & _).
      pose proof (Main_satisfied_hashes Poseidon n w Hsat) as Ech.
      apply Main_satisfied_iff in Hsat as (_ & _ & Ecr & Ecj & Hc & _).
      apply (HashListCheckInternal_sound p_prime Poseidon n _ Hn) in Hc
        as (_ & _ & _ & _ & E & _).
      apply Hne. rewrite Ecr, Ecj, Ech, Er, Ej, Eh in E. exact E.
    + exfalso. destruct Hw as (Eh & Er & Ej & Hsat & _).
      apply Main_satisfied_iff in Hsat as (_ & _ & _ & Ecj & Hc & _).
      apply (HashListCheckInternal_sound p_prime Poseidon n _ Hn) in Hc
        as (Hlt & _).
      apply Hout. rewrite Ecj, Ej in Hlt. exact Hlt.
Qed.

End Determinism_claim.

(** * The drivers' claims *)

Section Driver_claims.

Context {p : Z} (Poseidon : list (Zmod p) -> Zmod p).
Context (BigInt : string -> option Z) (readFileSync : string -> option string).
Context (JSON_parse : string -> option json) (trim : string -> string).
Context (String_of_json : json -> string) (default_others_path : string).

Abbreviation with_others_main :=
  (get_input_with_others_main Poseidon BigInt readFileSync JSON_parse trim
     String_of_json default_others_path).

Lemma js_bind_ret {A B : Type} (a : A) (f : A -> js B) : mret a ≫= f = f a.
Proof. unfold mbind, mret, js_bind, js_ret. destruct (f a). reflexivity. Qed.

Lemma or_throw_Some_bind {A B : Type} (e : js_error) (a : A) (f : A -> js B) :
  or_throw e (Some a) ≫= f = f a.
Proof. apply js_bind_ret. Qed.

(** The steps of [get_input_with_others.js] up to the shape check. *)
Lemma with_others_main_parsed (argv2 argv3 : option string) (raw : string) (others : json) :
  or_default argv2 "" <> "" ->
  readFileSync (or_default argv3 default_others_path) = Some raw ->
  raw <> "" -> trim raw <> "" ->
  JSON_parse raw = Some others ->
  with_others_main argv2 argv3 =
    if negb (Array_isArray others)
       || negb (bool_decide (json_length others = Some 9%nat)) then
      throw ShapeMismatch
    else
      _ ← emit buildPoseidon;
      secret' ← or_throw SyntaxError (BigInt (or_default argv2 ""));
      hashStr ← poseidon_hash Poseidon secret';
      let items := match others with JArray items => items | _ => [] end in
      emit (console_log {| input_r := or_default argv2 "";
                           input_j := String_of_number (Some 9);
                           input_hashes := (String_of_json <$> items) ++ [hashStr] |}).
Proof.
  intros Hsecret Hread Hraw Htrim Hparse. unfold get_input_with_others_main.
  cbv zeta. rewrite bool_decide_eq_false_2 by exact Hsecret.
  rewrite Hread, or_throw_Some_bind.
  rewrite !bool_decide_eq_false_2 by assumption. cbn [orb].
  rewrite Hparse, or_throw_Some_bind. reflexivity.
Qed.

(** Whatever the arguments and the files, an input that the script prints
    was built from an others file holding an array of exactly 9 entries. *)
Lemma with_others_main_printed (argv2 argv3 : option string)
    (log : list event) (o : outcome unit) (i : input) :
  with_others_main argv2 argv3 = (log, o) ->
  In (console_log i) log ->
  exists raw items hashStr,
    readFileSync (or_default argv3 default_others_path) = Some raw /\
    JSON_parse raw = Some (JArray items) /\ length items = 9%nat /\
    input_hashes i = (String_of_json <$> items) ++ [hashStr] /\
    length (input_hashes i) = 10%nat.
Proof.
  unfold get_input_with_others_main. cbv zeta.
  destruct (bool_decide (or_default argv2 "" = "")).
  { intros [= <- <-] [H|[]]. discriminate. }
  destruct (readFileSync (or_default argv3 default_others_path)) as [raw|] eqn:Hread;
    [rewrite or_throw_Some_bind | intros [= <- <-] []].
  destruct (bool_decide (raw = "") || bool_decide (trim raw = ""));
    [intros [= <- <-] []|].
  destruct (JSON_parse raw) as [others|] eqn:Hparse;
    [rewrite or_throw_Some_bind | intros [= <- <-] []].
  destruct others as [| | | |items|]; try (intros [= <- <-] []).
  cbn [Array_isArray negb orb json_length].
  destruct (bool_decide (Some (length items) = Some 9%nat)) eqn:E;
    [|intros [= <- <-] []].
  apply bool_decide_eq_true in E. injection E as E.
  cbn [negb]. destruct (BigInt (or_default argv2 "")) as [z|]; simpl.
  - intros [= <- <-] [H|[H|[H|[]]]]; try discriminate.
    injection H as <-. exists raw, items. eexists. simpl.
    split; [reflexivity|]. split; [exact Hparse|]. split; [exact E|].
    split; [reflexivity|].
    rewrite length_app, length_fmap, E. reflexivity.
  - intros [= <- <-] [H|[]]. discriminate.
Qed.

(** C8 (shape enforcement).  When the others file parses to anything but a
    JSON array of exactly 9 entries (8 or 10 entries, for a list of 9 or 11
    with the secret's hash), the input builder throws the shape error before
    it builds the hash function, computes a hash or prints an input: nothing
    reaches the witness generator.  And whatever the arguments and the
    files, an input it prints has exactly 10 hashes, the 9 of the file in
    order followed by the hash of the secret: the list is never truncated
    or extended. *)
Theorem shape_enforcement (argv2 argv3 : option string) :
  (forall raw others,
     or_default argv2 "" <> "" ->
     readFileSync (or_default argv3 default_others_path) = Some raw ->
     raw <> "" -> trim raw <> "" ->
     JSON_parse raw = Some others ->
     (forall items, others = JArray items -> length items <> 9%nat) ->
     with_others_main argv2 argv3 = ([], Thrown ShapeMismatch)) /\
  (forall log o i,
     with_others_main argv2 argv3 = (log, o) ->
     In (console_log i) log ->
     exists raw items hashStr,
       readFileSync (or_default argv3 default_others_path) = Some raw /\
       JSON_parse raw = Some (JArray items) /\ length items = 9%nat /\
       input_hashes i = (String_of_json <$> items) ++ [hashStr] /\
       length (input_hashes i) = 10%nat).
Proof.
  split.
  - intros raw others Hsecret Hread Hraw Htrim Hparse Hshape.
    rewrite (with_others_main_parsed argv2 argv3 raw others) by assumption.
    destruct others as [| | | |items|]; try reflexivity.
    simpl. rewrite bool_decide_eq_false_2; [reflexivity|].
    intros [= E]. exact (Hshape items eq_refl E).
  - apply with_others_main_printed.
Qed.

(** C10 (range check of [get_input.js]).  For every index argument that
    [parseInt] reads as an integer below 0 or above 9, [main] throws the
    error "j must be 0-9" having done nothing else: no hash function built,
    no hash computed, no input printed.  The index is rejected by this test
    of the script, before any circuit constraint is looked at. *)
Theorem get_input_range_check (argv2 argv3 : option string) (z : Z) :
  parseInt (or_default argv3 "0") = Some z ->
  z < 0 \/ z > 9 ->
  get_input_main Poseidon BigInt argv2 argv3
    = ([], Thrown (Error "j must be 0–9")) /\
  get_input Poseidon BigInt argv2 argv3
    = ([console_error (Error "j must be 0–9")], 0).
Proof.
  intros Hparse Hz. unfold get_input, get_input_main. rewrite Hparse. simpl.
  assert (E : (z <? 0) || (9 <? z) = true).
  { apply orb_true_iff. destruct Hz; [left; apply Z.ltb_lt | right; apply Z.ltb_lt]; lia. }
  rewrite E. split; reflexivity.
Qed.

End Driver_claims.

(** * The input builders, beyond the claims *)

Section Driver_properties.

Context {p : Z} (Poseidon : list (Zmod p) -> Zmod p).
Context (BigInt : string -> option Z) (readFileSync : string -> option string).
Context (JSON_parse : string -> option json) (trim : string -> string).
Context (String_of_json : json -> string) (default_others_path : string).

(** [poseidon.F.toString(poseidon([BigInt(s)]))] for a secret read as [x]. *)
Abbreviation hash_string x := (pretty (Zmod.to_Z (Poseidon [Zmod.of_Z p x]))).

(** [get_input.js], path by path. *)
Lemma get_input_main_run (argv2 argv3 : option string) :
  get_input_main Poseidon BigInt argv2 argv3 =
    let r := or_default argv2 "12345" in
    let j := parseInt (or_default argv3 "0") in
    if js_lt j 0 || js_gt j 9 then ([], Thrown (Error "j must be 0–9"))
    else
      match BigInt r with
      | None => ([buildPoseidon], Thrown SyntaxError)
      | Some x =>
          ([buildPoseidon; poseidon [x];
            console_log
              {| input_r := r; input_j := String_of_number j;
                 input_hashes :=
                   match j with
                   | Some z => <[Z.to_nat z := hash_string x]> (replicate 10 "0")
                   | None => replicate 10 "0"
                   end |}],
           Returned tt)
      end.
Proof.
  unfold get_input_main. cbv zeta.
  destruct (js_lt _ 0 || js_gt _ 9); [reflexivity|].
  destruct (BigInt (or_default argv2 "12345")); reflexivity.
Qed.

(** [get_input_with_others.js], path by path. *)
Lemma with_others_main_run (argv2 argv3 : option string) :
  get_input_with_others_main Poseidon BigInt readFileSync JSON_parse trim
    String_of_json default_others_path argv2 argv3 =
    let secret := or_default argv2 "" in
    let othersPath := or_default argv3 default_others_path in
    if bool_decide (secret = "") then ([console_error_usage], Exited 1)
    else
      match readFileSync othersPath with
      | None => ([], Thrown SystemError)
      | Some raw =>
          if bool_decide (raw = "") || bool_decide (trim raw = "") then
            ([], Thrown (Error ("Empty or missing file: " +:+ othersPath)))
          else
            match JSON_parse raw with
            | None => ([], Thrown SyntaxError)
            | Some others =>
                if negb (Array_isArray others)
                   || negb (bool_decide (json_length others = Some 9%nat)) then
                  ([], Thrown ShapeMismatch)
                else
                  match BigInt secret with
                  | None => ([buildPoseidon], Thrown SyntaxError)
                  | Some x =>
                      ([buildPoseidon; poseidon [x];
                        console_log
                          {| input_r := secret; input_j := "9";
                             input_hashes :=
                               (String_of_json <$>
                                  match others with
                                  | JArray items => items
                                  | _ => []
                                  end) ++ [hash_string x] |}],
                       Returned tt)
                  end
            end
      end.
Proof.
  unfold get_input_with_others_main. cbv zeta.
  destruct (bool_decide (or_default argv2 "" = "")); [reflexivity|].
  destruct (readFileSync (or_default argv3 default_others_path)) as [raw|];
    [|reflexivity].
  rewrite or_throw_Some_bind.
  destruct (bool_decide (raw = "") || bool_decide (trim raw = ""));
    [reflexivity|].
  destruct (JSON_parse raw) as [others|]; [|reflexivity].
  rewrite or_throw_Some_bind.
  destruct (negb (Array_isArray others)
            || negb (bool_decide (json_length others = Some 9%nat)));
    [reflexivity|].
  destruct (BigInt (or_default argv2 "")); reflexivity.
Qed.

(** The successful run of [get_input.js]. *)
Lemma get_input_printed (argv2 argv3 : option string) (z x : Z) :
  parseInt (or_default argv3 "0") = Some z ->
  0 <= z <= 9 ->
  BigInt (or_default argv2 "12345") = Some x ->
  get_input Poseidon BigInt argv2 argv3
    = ([buildPoseidon; poseidon [x];
        console_log
          {| input_r := or_default argv2 "12345"; input_j := pretty z;
             input_hashes :=
               <[Z.to_nat z := hash_string x]> (replicate 10 "0") |}], 0).
Proof.
  intros Hparse Hz Hx. unfold get_input.
  rewrite get_input_main_run. cbv zeta. rewrite Hparse, Hx.
  assert (E : js_lt (Some z) 0 || js_gt (Some z) 9 = false).
  { simpl. apply orb_false_iff. split; apply Z.ltb_ge; lia. }
  rewrite E. reflexivity.
Qed.

(** The input [get_input_with_others.js] prints, when it prints one. *)
Lemma with_others_main_input (argv2 argv3 : option string)
    (log : list event) (o : outcome unit) (i : input) :
  get_input_with_others_main Poseidon BigInt readFileSync JSON_parse trim
    String_of_json default_others_path argv2 argv3 = (log, o) ->
  In (console_log i) log ->
  exists x items,
    or_default argv2 "" <> "" /\
    BigInt (or_default argv2 "") = Some x /\ length items = 9%nat /\
    i = {| input_r := or_default argv2 ""; input_j := "9";
           input_hashes := (String_of_json <$> items) ++ [hash_string x] |}.
Proof.
  rewrite with_others_main_run. cbv zeta.
  destruct (bool_decide (or_default argv2 "" = "")) eqn:Hs.
  { intros [= <- <-] [H|[]]. discriminate. }
  apply bool_decide_eq_false in Hs.
  destruct (readFileSync (or_default argv3 default_others_path)) as [raw|];
    [|intros [= <- <-] []].
  destruct (bool_decide (raw = "") || bool_decide (trim raw = ""));
    [intros [= <- <-] []|].
  destruct (JSON_parse raw) as [others|]; [|intros [= <- <-] []].
  destruct others as [| | | |items|]; try (intros [= <- <-] []).
  cbn [Array_isArray negb orb json_length].
  destruct (bool_decide (Some (length items) = Some 9%nat)) eqn:E;
    [|intros [= <- <-] []].
  apply bool_decide_eq_true in E. injection E as E. cbn [negb].
  destruct (BigInt (or_default argv2 "")) as [x|] eqn:Hx.
  2:{ intros [= <- <-] [H|[]]. discriminate. }
  intros [= <- <-] [H|[H|[H|[]]]]; try discriminate.
  injection H as <-. exists x, items. auto.
Qed.

(** X1.  On an index argument that [parseInt] reads as an integer from 0 to
    9 and a secret that [BigInt] accepts, [get_input.js] builds the hash
    function, hashes the secret once, prints one input and ends with exit
    code 0.  The input carries the secret as given, the index in canonical
    decimal form (which [parseInt] reads back as the same index), and a list
    of exactly 10 strings: the hash of the secret at the index and "0" at
    each of the nine other places. *)
Theorem get_input_builds_list (argv2 argv3 : option string) (z x : Z) :
  parseInt (or_default argv3 "0") = Some z ->
  0 <= z <= 9 ->
  BigInt (or_default argv2 "12345") = Some x ->
  exists i,
    get_input Poseidon BigInt argv2 argv3
      = ([buildPoseidon; poseidon [x]; console_log i], 0) /\
    input_r i = or_default argv2 "12345" /\
    input_j i = pretty z /\ parseInt (input_j i) = Some z /\
    length (input_hashes i) = 10%nat /\
    input_hashes i !!! Z.to_nat z = hash_string x /\
    forall k, (k < 10)%nat -> k <> Z.to_nat z -> input_hashes i !!! k = "0".
Proof.
  intros Hparse Hz Hx. eexists.
  split; [exact (get_input_printed argv2 argv3 z x Hparse Hz Hx)|].
  cbn [input_r input_j input_hashes].
  split; [reflexivity|]. split; [reflexivity|].
  assert (Hlen : length (replicate 10 "0") = 10%nat) by reflexivity.
  split; [|split; [apply length_insert|split]].
  - assert (Hcases : z = 0 \/ z = 1 \/ z = 2 \/ z = 3 \/ z = 4 \/ z = 5 \/ z = 6
                     \/ z = 7 \/ z = 8 \/ z = 9) by lia.
    destruct Hcases as [->|[->|[->|[->|[->|[->|[->|[->|[->| ->]]]]]]]]];
      reflexivity.
  - apply list_lookup_total_insert_eq. rewrite Hlen. lia.
  - intros k Hk Hne. rewrite list_lookup_total_insert_ne by congruence.
    rewrite lookup_total_replicate_2 by exact Hk. reflexivity.
Qed.

(** X2.  The range test of [get_input.js] lets an index argument through
    that [parseInt] cannot read ([NaN] is neither below 0 nor above 9): the
    script hashes the secret, stores the hash in no place of the list, and
    prints an input whose 10 hashes are all "0" and whose index is the string
    "NaN", with exit code 0. *)
Theorem get_input_not_a_number (argv2 argv3 : option string) (x : Z) :
  parseInt (or_default argv3 "0") = NaN ->
  BigInt (or_default argv2 "12345") = Some x ->
  get_input Poseidon BigInt argv2 argv3
    = ([buildPoseidon; poseidon [x];
        console_log {| input_r := or_default argv2 "12345"; input_j := "NaN";
                       input_hashes := replicate 10 "0" |}], 0).
Proof.
  intros Hparse Hx. unfold get_input.
  rewrite get_input_main_run. cbv zeta. rewrite Hparse, Hx. reflexivity.
Qed.

(** X3.  [get_input.js] ends with exit code 0 whatever its arguments: its
    errors are caught and written to the error stream only.  A run either
    prints exactly one input, after building the hash function and hashing
    once, or prints no input at all and ends by reporting the error it
    caught. *)
Theorem get_input_exit_code (argv2 argv3 : option string) :
  (get_input Poseidon BigInt argv2 argv3).2 = 0 /\
  ((exists x i,
      (get_input Poseidon BigInt argv2 argv3).1
        = [buildPoseidon; poseidon [x]; console_log i]) \/
   (exists pre e,
      (get_input Poseidon BigInt argv2 argv3).1 = pre ++ [console_error e] /\
      forall i, ~ In (console_log i) (get_input Poseidon BigInt argv2 argv3).1)).
Proof.
  unfold get_input. rewrite get_input_main_run. cbv zeta.
  destruct (js_lt _ 0 || js_gt _ 9).
  { split; [reflexivity|]. right. exists [], (Error "j must be 0–9").
    split; [reflexivity|]. intros i [H|[]]. discriminate. }
  destruct (BigInt (or_default argv2 "12345")) as [x|].
  - split; [reflexivity|]. left. eauto.
  - split; [reflexivity|]. right. exists [buildPoseidon], SyntaxError.
    split; [reflexivity|]. intros i [H|[H|[]]]; discriminate.
Qed.

(** X4.  [get_input_with_others.js] ends with exit code 0 exactly when it
    printed an input, and then it printed exactly one, after building the
    hash function and hashing once.  Every other run ends with exit code 1,
    prints no input, and ends by writing the usage line (exactly when the
    secret is missing or empty, and then nothing else happened) or the error
    it caught. *)
Theorem get_input_with_others_exit_code (argv2 argv3 : option string) :
  let run := get_input_with_others Poseidon BigInt readFileSync JSON_parse trim
               String_of_json default_others_path argv2 argv3 in
  (run.2 = 0 /\ exists x i, run.1 = [buildPoseidon; poseidon [x]; console_log i]) \/
  (run.2 = 1 /\ (forall i, ~ In (console_log i) run.1) /\
   ((or_default argv2 "" = "" /\ run.1 = [console_error_usage]) \/
    (or_default argv2 "" <> "" /\ exists pre e, run.1 = pre ++ [console_error e]))).
Proof.
  cbv zeta. unfold get_input_with_others. rewrite with_others_main_run. cbv zeta.
  destruct (bool_decide (or_default argv2 "" = "")) eqn:Hs.
  { apply bool_decide_eq_true in Hs. right. split; [reflexivity|]. split.
    - intros i [H|[]]. discriminate.
    - left. auto. }
  apply bool_decide_eq_false in Hs.
  assert (Hthrow : forall e,
    let run := ([] ++ [console_error e], 1) in
    (run.2 = 0 /\ exists x i, run.1 = [buildPoseidon; poseidon [x]; console_log i]) \/
    (run.2 = 1 /\ (forall i, ~ In (console_log i) run.1) /\
     ((or_default argv2 "" = "" /\ run.1 = [console_error_usage]) \/
      (or_default argv2 "" <> "" /\ exists pre e, run.1 = pre ++ [console_error e])))).
  { intros e. right. split; [reflexivity|]. split.
    - intros i [H|[]]. discriminate.
    - right. split; [exact Hs|]. exists [], e. reflexivity. }
  destruct (readFileSync (or_default argv3 default_others_path)) as [raw|];
    [|apply Hthrow].
  destruct (bool_decide (raw = "") || bool_decide (trim raw = ""));
    [apply Hthrow|].
  destruct (JSON_parse raw) as [others|]; [|apply Hthrow].
  destruct (negb (Array_isArray others)
            || negb (bool_decide (json_length others = Some 9%nat)));
    [apply Hthrow|].
  destruct (BigInt (or_default argv2 "")) as [x|].
  - left. split; [reflexivity|]. eauto.
  - right. split; [reflexivity|]. split.
    + intros i [H|[H|[]]]; discriminate.
    + right. split; [exact Hs|]. exists [buildPoseidon], SyntaxError. reflexivity.
Qed.

(** X5.  With a secret given, [get_input_with_others.js] throws "Empty or
    missing file: <path>" exactly when the others file could be read and is
    empty or blank; the contents are then never handed to [JSON.parse].  A
    file that cannot be read is not reported by this message: the error of
    [readFileSync] itself reaches the handler.  Both runs end with exit
    code 1 and print no input. *)
Theorem get_input_with_others_blank_file (argv2 argv3 : option string) :
  or_default argv2 "" <> "" ->
  let othersPath := or_default argv3 default_others_path in
  let Empty := Error ("Empty or missing file: " +:+ othersPath) in
  let run := get_input_with_others Poseidon BigInt readFileSync JSON_parse trim
               String_of_json default_others_path argv2 argv3 in
  (run = ([console_error Empty], 1) <->
   exists raw, readFileSync othersPath = Some raw /\ (raw = "" \/ trim raw = "")) /\
  (readFileSync othersPath = None -> run = ([console_error SystemError], 1)).
Proof.
  intros Hs. cbv zeta. unfold get_input_with_others.
  rewrite with_others_main_run. cbv zeta.
  rewrite bool_decide_eq_false_2 by exact Hs.
  destruct (readFileSync (or_default argv3 default_others_path)) as [raw|].
  2:{ split; [|reflexivity]. split; [discriminate|]. intros (raw & H & _).
      discriminate. }
  split; [|discriminate].
  destruct (bool_decide (raw = "") || bool_decide (trim raw = "")) eqn:Hb.
  { split; [|reflexivity]. intros _. exists raw. split; [reflexivity|].
    apply orb_true_iff in Hb as [Hb|Hb]; apply bool_decide_eq_true in Hb; auto. }
  apply orb_false_iff in Hb as (Hb1 & Hb2).
  apply bool_decide_eq_false in Hb1, Hb2.
  split; [|intros (raw' & [= <-] & [H|H]); contradiction].
  destruct (JSON_parse raw) as [others|]; [|discriminate].
  destruct (negb (Array_isArray others)
            || negb (bool_decide (json_length others = Some 9%nat)));
    [discriminate|].
  destruct (BigInt (or_default argv2 "")); discriminate.
Qed.

(** X6.  The three scripts agree on the hash of a secret: the [knownHash]
    that [get_hash.js] prints for a secret argument is, string for string,
    the entry [get_input.js] stores at the index [j] for the same argument
    (the two scripts share the default secret), and the tenth entry
    [get_input_with_others.js] appends for the secret [get_hash.js]
    printed. *)
Theorem get_hash_consistent (argv2 : option string) (o : GetHash.output) :
  In (GetHash.console_log o) (GetHash.get_hash Poseidon BigInt argv2).1 ->
  GetHash.secret o = or_default argv2 "12345" /\
  (forall argv3 z, parseInt (or_default argv3 "0") = Some z -> 0 <= z <= 9 ->
     exists i,
       In (console_log i) (get_input Poseidon BigInt argv2 argv3).1 /\
       input_r i = GetHash.secret o /\
       input_hashes i !!! Z.to_nat z = GetHash.knownHash o) /\
  (forall argv3 log out i,
     get_input_with_others_main Poseidon BigInt readFileSync JSON_parse trim
       String_of_json default_others_path (Some (GetHash.secret o)) argv3
       = (log, out) ->
     In (console_log i) log ->
     input_r i = GetHash.secret o /\
     input_hashes i !!! 9%nat = GetHash.knownHash o).
Proof.
  unfold GetHash.get_hash, GetHash.main. cbv zeta.
  destruct (BigInt (or_default argv2 "12345")) as [x|] eqn:Hx.
  2:{ intros [H|[H|[]]]; discriminate. }
  intros [H|[H|[H|[]]]]; try discriminate. injection H as <-.
  cbn [GetHash.secret GetHash.knownHash].
  split; [reflexivity|]. split.
  - intros argv3 z Hparse Hz. eexists.
    rewrite (get_input_printed argv2 argv3 z x Hparse Hz Hx).
    split; [right; right; left; reflexivity|]. cbn [input_r input_hashes].
    split; [reflexivity|].
    apply list_lookup_total_insert_eq. rewrite length_replicate. lia.
  - intros argv3 log out i Hrun Hin.
    destruct (with_others_main_input _ argv3 log out i Hrun Hin)
      as (x' & items & Hs & Hx' & Hlen & ->).
    assert (Hne : or_default (Some (or_default argv2 "12345")) ""
                  = or_default argv2 "12345").
    { unfold or_default at 1. case_bool_decide; congruence. }
    rewrite Hne in *. assert (x' = x) as -> by congruence.
    cbn [input_r input_hashes]. split; [reflexivity|].
    rewrite lookup_total_app_r by (rewrite length_fmap; lia).
    rewrite length_fmap, Hlen. reflexivity.
Qed.

End Driver_properties.

(** * The circuit, beyond the claims *)

Section Circuit_properties.

Context {p : Z} (p_prime : Z.prime p) (Poseidon : list (Zmod p) -> Zmod p).

(** Reduce the projections of the signal records, and nothing else. *)
Ltac signals :=
  cbn [m_hashes m_r m_j m_ok m_c c_r c_j c_hashes c_ok c_h c_hr c_sel c_eq
       c_sumSel c_selectedHash ieq_in0 ieq_in1 ieq_out ieq_isz
       isz_in isz_out isz_inv pos_inputs pos_out].

(** X7.  Witness computation and constraints agree: on a list of [n]
    entries, [Main] computes a witness exactly when the index designates a
    position of the list and the secret hashes to the entry there, and
    exactly when some assignment with this list, secret and index satisfies
    the constraints.  The assignments [<==] never reject inputs that the
    constraints [===] would accept, nor the reverse. *)
Theorem Main_succeeds_iff_satisfiable (n : nat) (hashes : list (Zmod p))
    (r j : Zmod p) :
  Z.of_nat n <= p ->
  length hashes = n ->
  ((exists w, Main Poseidon n hashes r j = Ok w) <->
   (position j < n)%nat /\ Poseidon [r] = hashes !!! position j) /\
  ((exists w, Main Poseidon n hashes r j = Ok w) <->
   exists w, Main_satisfied Poseidon n w = true /\
             m_hashes w = hashes /\ m_r w = r /\ m_j w = j).
Proof.
  intros Hn Hlen.
  assert (Hsound : forall w, Main_satisfied Poseidon n w = true ->
            m_hashes w = hashes -> m_r w = r -> m_j w = j ->
            (position j < n)%nat /\ Poseidon [r] = hashes !!! position j).
  { intros w Hsat Eh Er Ej.
    pose proof (Main_satisfied_hashes Poseidon n w Hsat) as Ech.
    apply Main_satisfied_iff in Hsat as (_ & _ & Ecr & Ecj & Hc & _).
    apply (HashListCheckInternal_sound p_prime Poseidon n _ Hn) in Hc
      as (Hlt & _ & _ & _ & E & _).
    rewrite Ecr, Ecj, Ech, Er, Ej, Eh in *. auto. }
  destruct (Main_outcome p_prime Poseidon n hashes r j Hn Hlen)
    as [(w & Hrun & Hj & Hh & Hsat & Eh & Er & Ej & _)
       | [(Hrun & Hj & Hne) | (Hrun & Hout)]].
  - split; split; eauto.
  - split; split.
    + intros (w & Hw). rewrite Hrun in Hw. discriminate.
    + intros (_ & E). contradiction.
    + intros (w & Hw). rewrite Hrun in Hw. discriminate.
    + intros (w & Hsat & Eh & Er & Ej).
      destruct (Hsound w Hsat Eh Er Ej). contradiction.
  - split; split.
    + intros (w & Hw). rewrite Hrun in Hw. discriminate.
    + intros (Hlt & _). contradiction.
    + intros (w & Hw). rewrite Hrun in Hw. discriminate.
    + intros (w & Hsat & Eh & Er & Ej).
      destruct (Hsound w Hsat Eh Er Ej). contradiction.
Qed.

(** X8.  Both running sums are step functions of the position the index
    designates.  In every assignment that satisfies the constraints, and so
    in every computed witness, [sumSel[k]] is 0 up to that position and 1
    after it, and [selectedHash[k]] is 0 up to that position and the
    selected list entry after it, for every [k] from 0 to [n]. *)
Theorem running_sums_step (n : nat) (w : Main_signals p) :
  Z.of_nat n <= p ->
  Main_satisfied Poseidon n w = true ->
  forall k, (k <= n)%nat ->
    c_sumSel (m_c w) !!! k
      = (if decide (position (m_j w) < k)%nat then 1%Zmod else 0%Zmod) /\
    c_selectedHash (m_c w) !!! k
      = (if decide (position (m_j w) < k)%nat
         then m_hashes w !!! position (m_j w) else 0%Zmod).
Proof.
  intros Hn Hsat k Hk.
  pose proof (Main_satisfied_hashes Poseidon n w Hsat) as Ech.
  apply Main_satisfied_iff in Hsat as (_ & _ & _ & Ecj & Hc & _).
  pose proof (HashListCheckInternal_sound p_prime Poseidon n _ Hn Hc)
    as (_ & (_ & Hoh) & _).
  apply HashListCheckInternal_satisfied_iff in Hc
    as (_ & _ & _ & _ & _ & Hs0 & Hs & _ & Hh0 & Hh & _).
  rewrite Ecj in Hoh. rewrite <- Ech.
  assert (Hoh' : forall i, (i < k)%nat ->
    c_sel (m_c w) !!! i = if decide (i = position (m_j w)) then 1%Zmod else 0%Zmod).
  { intros i Hi. apply Hoh. lia. }
  split.
  - rewrite (running_sum_sound (fun i => c_sel (m_c w) !!! i) n _ Hs0 Hs k Hk).
    apply indicator_sum, Hoh'.
  - rewrite (running_sum_sound
               (fun i => (c_sel (m_c w) !!! i * c_hashes (m_c w) !!! i)%Zmod)
               n _ Hh0 Hh k Hk).
    apply indicator_select, Hoh'.
Qed.

(** X9.  The constraints do not fix the witness: in a satisfying assignment
    the inverse hint of the equality test at the selected position may be
    replaced by any field element, and the assignment still satisfies every
    constraint, with the same list, secret, index and output. *)
Theorem inverse_hint_free (n : nat) (w : Main_signals p) (v : Zmod p) :
  Z.of_nat n <= p ->
  Main_satisfied Poseidon n w = true ->
  let w' := set_inverse_hint (position (m_j w)) v w in
  Main_satisfied Poseidon n w' = true /\
  m_hashes w' = m_hashes w /\ m_r w' = m_r w /\ m_j w' = m_j w /\
  m_ok w' = m_ok w /\
  isz_inv (ieq_isz (c_eq (m_c w') !!! position (m_j w))) = v.
Proof.
  intros Hn Hsat. cbv zeta.
  apply Main_satisfied_iff in Hsat as (Hl & Hw & Ecr & Ecj & Hc & Hok).
  pose proof (HashListCheckInternal_sound p_prime Poseidon n _ Hn Hc)
    as (Hlt & _).
  rewrite Ecj in Hlt.
  apply HashListCheckInternal_satisfied_iff in Hc
    as ((Hl0 & Hl1 & Hl2 & Hl3 & Hl4 & Hl5) & Hin & Hout & Hhr & Heq & Hrest).
  unfold set_inverse_hint. split.
  2:{ signals. repeat (split; [reflexivity|]).
      rewrite list_lookup_total_insert_eq by lia. reflexivity. }
  apply Main_satisfied_iff. signals.
  repeat (split; [assumption|]). split; [|assumption].
  apply HashListCheckInternal_satisfied_iff. signals.
  rewrite length_insert.
  split; [tauto|]. repeat (split; [assumption|]). split; [|exact Hrest].
  intros i Hi. destruct (decide (i = position (m_j w))) as [->|Hne].
  - rewrite list_lookup_total_insert_eq by lia. signals.
    destruct (Heq _ Hlt) as (E0 & E1 & Hcs & Es).
    repeat (split; [assumption|]). split; [|assumption].
    apply IsEqual_constraints_iff in Hcs as (Ein & Hz & Eout).
    apply IsEqual_constraints_iff. signals.
    split; [assumption|]. split; [|assumption].
    assert (Ez : isz_in (ieq_isz (c_eq (m_c w) !!! position (m_j w))) = 0%Zmod).
    { rewrite Ein, E0, E1, Ecj, const_position by exact p_prime.
      apply Zmod.sub_same. }
    pose proof (IsZero_sound p_prime _ Hz) as Ho.
    rewrite Ez in Ho. destruct (decide (0%Zmod = 0%Zmod)); [|contradiction].
    unfold IsZero_constraints. rewrite !all_hold_cons. signals. cbn [fst snd].
    rewrite Ez, Ho. split; [|split; [|apply all_hold_nil]].
    + rewrite Zmod.opp_0, Zmod.mul_0_l, Zmod.add_0_l. reflexivity.
    + apply Zmod.mul_0_l.
  - rewrite list_lookup_total_insert_ne by congruence. apply Heq, Hi.
Qed.

End Circuit_properties.

(** * From the input builders to the circuit *)

Section Pipeline_properties.

Context {p : Z} (p_prime : Z.prime p) (p_large : 10 <= p).
Context (Poseidon : list (Zmod p) -> Zmod p).
Context (BigInt : string -> option Z) (readFileSync : string -> option string).
Context (JSON_parse : string -> option json) (trim : string -> string).
Context (String_of_json : json -> string) (default_others_path : string).

(** The circuit accepts a list of 10 entries with the hash of the secret
    at position [k], whatever the other entries are. *)
Lemma main_accepts (hashes : list (Zmod p)) (x : Z) (k : nat) :
  length hashes = 10%nat -> (k < 10)%nat ->
  hashes !!! k = Poseidon [Zmod.of_Z p x] ->
  exists w,
    main Poseidon hashes (Zmod.of_Z p x) (const k) = Ok w /\
    Main_satisfied Poseidon 10 w = true /\ m_ok w = 1%Zmod.
Proof.
  intros Hlen Hk Hh. unfold main.
  assert (Hpos : position (@const p k) = k) by (apply position_const; lia).
  destruct (Main_outcome p_prime Poseidon 10 hashes (Zmod.of_Z p x) (const k)
              ltac:(simpl; lia) Hlen)
    as [(w & Hrun & _ & _ & Hsat & _ & _ & _ & Hok)
       | [(_ & _ & Hne) | (_ & Hout)]].
  - exists w. auto.
  - rewrite Hpos in Hne. congruence.
  - rewrite Hpos in Hout. contradiction.
Qed.

(** X10.  What [get_input.js] prints is a satisfying input of the circuit:
    for an index argument read as an integer [z] from 0 to 9 and a secret
    read as [x], the 10 printed hashes are the decimal numerals of a list of
    field elements, the printed index is the numeral of [z] and the printed
    secret is the secret, and on that list, secret and index [Main(10)]
    computes a witness that satisfies every constraint, with output 1. *)
Theorem get_input_accepted (argv2 argv3 : option string) (z x : Z) :
  parseInt (or_default argv3 "0") = Some z ->
  0 <= z <= 9 ->
  BigInt (or_default argv2 "12345") = Some x ->
  exists i hashes w,
    In (console_log i) (get_input Poseidon BigInt argv2 argv3).1 /\
    BigInt (input_r i) = Some x /\
    input_j i = pretty z /\
    input_hashes i = (fun h => pretty (Zmod.to_Z h)) <$> hashes /\
    main Poseidon hashes (Zmod.of_Z p x) (Zmod.of_Z p z) = Ok w /\
    Main_satisfied Poseidon 10 w = true /\ m_ok w = 1%Zmod.
Proof.
  intros Hparse Hz Hx.
  pose (hashes := <[Z.to_nat z := Poseidon [Zmod.of_Z p x]]>
                    (replicate 10 (0%Zmod : Zmod p))).
  assert (Hlen : length hashes = 10%nat)
    by (unfold hashes; rewrite length_insert; reflexivity).
  destruct (main_accepts hashes x (Z.to_nat z) Hlen ltac:(lia)) as (w & Hrun & Hw).
  { unfold hashes. apply list_lookup_total_insert_eq.
    rewrite length_replicate. lia. }
  unfold const in Hrun. rewrite Z2Nat.id in Hrun by lia.
  eexists _, hashes, w. split; [|split; [|split; [|split; [|exact (conj Hrun Hw)]]]].
  - rewrite (get_input_printed Poseidon BigInt argv2 argv3 z x Hparse Hz Hx).
    right. right. left. reflexivity.
  - exact Hx.
  - reflexivity.
  - cbn [input_hashes]. unfold hashes.
    rewrite list_fmap_insert, fmap_replicate, Zmod.unsigned_0. reflexivity.
Qed.

(** X11.  What [get_input_with_others.js] prints is a satisfying input of
    the circuit, whatever the nine entries of the file stand for: the
    printed index is "9", the last printed hash is the numeral of the hash of
    the printed secret, and on every list of 10 field elements that ends with
    that hash [Main(10)] computes, for this secret and the index 9, a witness
    that satisfies every constraint, with output 1. *)
Theorem get_input_with_others_accepted (argv2 argv3 : option string)
    (log : list event) (o : outcome unit) (i : input) :
  get_input_with_others_main Poseidon BigInt readFileSync JSON_parse trim
    String_of_json default_others_path argv2 argv3 = (log, o) ->
  In (console_log i) log ->
  exists x,
    BigInt (input_r i) = Some x /\
    input_j i = "9" /\
    length (input_hashes i) = 10%nat /\
    input_hashes i !!! 9%nat = pretty (Zmod.to_Z (Poseidon [Zmod.of_Z p x])) /\
    forall others : list (Zmod p), length others = 9%nat ->
      exists w,
        main Poseidon (others ++ [Poseidon [Zmod.of_Z p x]])
          (Zmod.of_Z p x) (Zmod.of_Z p 9) = Ok w /\
        Main_satisfied Poseidon 10 w = true /\ m_ok w = 1%Zmod.
Proof.
  intros Hrun Hin.
  destruct (with_others_main_input Poseidon BigInt readFileSync JSON_parse trim
              String_of_json default_others_path argv2 argv3 log o i Hrun Hin)
    as (x & items & _ & Hx & Hitems & ->).
  exists x. cbn [input_r input_j input_hashes].
  split; [exact Hx|]. split; [reflexivity|].
  split; [rewrite length_app, length_fmap, Hitems; reflexivity|].
  split.
  { rewrite lookup_total_app_r by (rewrite length_fmap; lia).
    rewrite length_fmap, Hitems. reflexivity. }
  intros others Hlen.
  apply (main_accepts (others ++ [Poseidon [Zmod.of_Z p x]]) x 9).
  - rewrite length_app, Hlen. reflexivity.
  - lia.
  - rewrite lookup_total_app_r by lia. rewrite Hlen. reflexivity.
Qed.

End Pipeline_properties.

(** * The proving scripts *)

Section Script_properties.

Context {p : Z} (Poseidon : list (Zmod p) -> Zmod p).
Context (BigInt : string -> option Z) (readFileSync : string -> option string).
Context (JSON_parse : string -> option json) (trim : string -> string).
Context (String_of_json : json -> string) (default_others_path : string).
Context (generate_witness groth16_prove : list input -> Z) (public_json : string).

Lemma run_bind {A : Type} (c : command) (code : Z) (f : unit -> sh A) :
  run c code ≫= f =
    if bool_decide (code = 0) then ([c] ++ (f tt).1, (f tt).2) else ([c], Exit code).
Proof.
  unfold mbind, sh_bind, run. case_bool_decide; [|reflexivity].
  destruct (f tt). reflexivity.
Qed.

Lemma exit_status_cons (c : command) (s : sh unit) :
  exit_status ([c] ++ s.1, s.2) = (c :: (exit_status s).1, (exit_status s).2).
Proof. destruct s as [trace [[]|code]]; reflexivity. Qed.

(** The shell's default for a parameter and the script's default for the
    argument it is passed as are the same rule. *)
Lemma or_default_parameter_default (x : option string) (d : string) :
  or_default (Some (parameter_default x d)) d = or_default x d.
Proof.
  destruct x as [s|]; simpl.
  - case_bool_decide; simpl; case_bool_decide; congruence.
  - case_bool_decide; reflexivity.
Qed.

Lemma get_input_parameter_default (arg1 arg2 : option string) :
  get_input Poseidon BigInt (Some (parameter_default arg1 "12345"))
                            (Some (parameter_default arg2 "0"))
  = get_input Poseidon BigInt arg1 arg2.
Proof.
  unfold get_input. rewrite !get_input_main_run. cbv zeta.
  rewrite !or_default_parameter_default. reflexivity.
Qed.

Lemma get_input_exits_0 (argv2 argv3 : option string) :
  (get_input Poseidon BigInt argv2 argv3).2 = 0.
Proof.
  unfold get_input. rewrite get_input_main_run. cbv zeta.
  destruct (js_lt _ 0 || js_gt _ 9); [reflexivity|].
  destruct (BigInt (or_default argv2 "12345")); reflexivity.
Qed.

(** X12.  [prove.sh] always reaches the witness generator: the exit code 0
    of [get_input.js] never stops the script, [set -e] notwithstanding.  The
    input file it hands over is what [get_input.js] printed for the same two
    arguments (the defaults of the two scripts coincide); for an index
    outside 0..9 that is an empty file. *)
Theorem prove_sh_runs_witness_generator (arg1 arg2 : option string) :
  In (node_generate_witness (stdout (get_input Poseidon BigInt arg1 arg2).1))
     (prove_sh Poseidon BigInt generate_witness groth16_prove public_json
        arg1 arg2).1 /\
  forall z, parseInt (or_default arg2 "0") = Some z -> z < 0 \/ z > 9 ->
    In (node_generate_witness [])
       (prove_sh Poseidon BigInt generate_witness groth16_prove public_json
          arg1 arg2).1.
Proof.
  assert (Hreach :
    In (node_generate_witness (stdout (get_input Poseidon BigInt arg1 arg2).1))
       (prove_sh Poseidon BigInt generate_witness groth16_prove public_json
          arg1 arg2).1).
  { unfold prove_sh. cbv zeta. rewrite get_input_parameter_default.
    rewrite run_bind, bool_decide_eq_true_2, exit_status_cons by reflexivity.
    right. cbn [fst].
    rewrite run_bind, bool_decide_eq_true_2, exit_status_cons
      by apply get_input_exits_0.
    right. cbn [fst].
    rewrite run_bind, bool_decide_eq_true_2, exit_status_cons by reflexivity.
    right. cbn [fst]. rewrite run_bind. case_bool_decide.
    - rewrite exit_status_cons. left. reflexivity.
    - left. reflexivity. }
  split; [exact Hreach|]. intros z Hparse Hz.
  replace (@nil input) with (stdout (get_input Poseidon BigInt arg1 arg2).1);
    [exact Hreach|].
  unfold get_input. rewrite get_input_main_run. cbv zeta. rewrite Hparse.
  replace (js_lt (Some z) 0 || js_gt (Some z) 9) with true; [reflexivity|].
  symmetry. simpl. apply orb_true_iff.
  destruct Hz; [left | right]; apply Z.ltb_lt; lia.
Qed.

(** How [get_input_with_others.js] ends: with exit code 0 and one input on
    its standard output, or with exit code 1 and nothing on it. *)
Lemma get_input_with_others_stdout (argv2 argv3 : option string) :
  let node := get_input_with_others Poseidon BigInt readFileSync JSON_parse trim
                String_of_json default_others_path argv2 argv3 in
  (node.2 = 0 /\
   exists i, stdout node.1 = [i] /\ input_r i = or_default argv2 "" /\
             input_j i = "9" /\ length (input_hashes i) = 10%nat) \/
  (node.2 = 1 /\ stdout node.1 = []).
Proof.
  cbv zeta. unfold get_input_with_others. rewrite with_others_main_run. cbv zeta.
  destruct (bool_decide (or_default argv2 "" = "")); [right; auto|].
  destruct (readFileSync (or_default argv3 default_others_path)) as [raw|];
    [|right; auto].
  destruct (bool_decide (raw = "") || bool_decide (trim raw = ""));
    [right; auto|].
  destruct (JSON_parse raw) as [others|]; [|right; auto].
  destruct others as [| | | |items|]; try (right; split; reflexivity).
  cbn [Array_isArray negb orb json_length].
  destruct (bool_decide (Some (length items) = Some 9%nat)) eqn:E;
    [|right; auto].
  apply bool_decide_eq_true in E. injection E as E. cbn [negb].
  destruct (BigInt (or_default argv2 "")) as [x|]; [|right; auto].
  left. split; [reflexivity|]. eexists. split; [reflexivity|].
  cbn [input_r input_j input_hashes]. repeat (split; [reflexivity|]).
  rewrite length_app, length_fmap, E. reflexivity.
Qed.

(** X13.  [prove_with_list.sh] hands the witness generator nothing but a
    complete input.  When the secret is missing or empty the script prints
    its usage line and stops with exit code 1, having run nothing else.
    When [get_input_with_others.js] fails the script stops right after it
    with exit code 1, before the generator.  When it succeeds the
    generator is run on what it printed.  And whenever the generator is
    run, its input file holds exactly one input, with the secret given to
    the script, the index "9" and a list of 10 hashes. *)
Theorem prove_with_list_sh_guard (arg1 arg2 : option string) :
  let SECRET := default "" arg1 in
  let OTHERS := parameter_default arg2 "other_hashs.json" in
  let node := get_input_with_others Poseidon BigInt readFileSync JSON_parse trim
                String_of_json default_others_path (Some SECRET) (Some OTHERS) in
  let script := prove_with_list_sh Poseidon BigInt readFileSync JSON_parse trim
                  String_of_json default_others_path generate_witness
                  groth16_prove arg1 arg2 in
  (SECRET = "" ->
   script = ([echo "Usage: ./prove_with_list.sh <secret> [others.json]"], 1)) /\
  (SECRET <> "" -> node.2 <> 0 ->
   script = ([echo ("Building input: 9 hashes from " +:+ OTHERS
                    +:+ " + Poseidon(secret) at index 9...");
              node_get_input_with_others SECRET OTHERS], 1)) /\
  (SECRET <> "" -> node.2 = 0 ->
   In (node_generate_witness (stdout node.1)) script.1) /\
  (forall f, In (node_generate_witness f) script.1 ->
     exists i, f = [i] /\ input_r i = SECRET /\ input_j i = "9" /\
               length (input_hashes i) = 10%nat).
Proof.
  cbv zeta. unfold prove_with_list_sh. cbv zeta.
  destruct (bool_decide (default "" arg1 = "")) eqn:Hs.
  { apply bool_decide_eq_true in Hs.
    rewrite run_bind, bool_decide_eq_true_2 by reflexivity. cbn.
    split; [reflexivity|]. split; [contradiction|]. split; [contradiction|].
    intros f [H|[]]. discriminate. }
  apply bool_decide_eq_false in Hs.
  assert (Hsecret : or_default (Some (default "" arg1)) "" = default "" arg1).
  { unfold or_default. rewrite bool_decide_eq_false_2 by exact Hs. reflexivity. }
  pose proof (get_input_with_others_stdout (Some (default "" arg1))
                (Some (parameter_default arg2 "other_hashs.json"))) as Hnode.
  cbv zeta in Hnode. rewrite Hsecret in Hnode.
  destruct (get_input_with_others Poseidon BigInt readFileSync JSON_parse trim
              String_of_json default_others_path (Some (default "" arg1))
              (Some (parameter_default arg2 "other_hashs.json")))
    as [log code].
  cbn [fst snd] in Hnode. unfold mbind at 1, mret, sh_bind, sh_ret.
  repeat (rewrite run_bind; cbv beta). unfold run.
  rewrite !(bool_decide_eq_true_2 (0 = 0)) by reflexivity. cbn [fst snd].
  split; [contradiction|].
  destruct Hnode as [(-> & i & -> & Hi) | (-> & ->)].
  - split; [intros _ H; contradiction|]. split.
    + intros _ _. repeat case_bool_decide; cbn; auto.
    + intros f Hin. exists i. split; [|exact Hi].
      repeat case_bool_decide; cbn in Hin;
        repeat (destruct Hin as [Hin|Hin]; [try discriminate|]);
        try contradiction; injection Hin as <-; reflexivity.
  - rewrite bool_decide_eq_false_2 by discriminate. cbn.
    split; [reflexivity|]. split; [discriminate|].
    intros f [H|[H|[]]]; discriminate.
Qed.

End Script_properties.

(** * The scenarios, run *)

Lemma bn128_large : Z.of_nat 10 <= bn128.
Proof. vm_compute. discriminate. Qed.

Lemma scenario_run :
  Main toy_hash 10 scenario_list (fe 42) (fe 3) = Ok scenario_witness.
Proof. vm_compute. reflexivity. Qed.

(** Scenario 1: [secret = 42, index = 3] succeeds with public output 1. *)
Lemma completeness_witness :
  exists w,
    Main toy_hash 10 scenario_list (fe 42) (fe 3) = Ok w /\
    Main_satisfied toy_hash 10 w = true /\
    m_ok w = 1%Zmod.
Proof.
  apply (completeness bn128_prime toy_hash 10 scenario_list (fe 42) (fe 3)).
  - exact bn128_large.
  - reflexivity.
  - vm_compute. lia.
  - vm_compute. reflexivity.
Defined.

(** Scenario 3: [secret = 43, index = 3] is rejected on the hash equation. *)
Lemma soundness_under_tampering_witness :
  Main toy_hash 10 scenario_list (fe 43) (fe 3)
    = Err (AssertFailed "HashListCheckInternal" "hr === selectedHash[n]").
Proof.
  apply (soundness_under_tampering bn128_prime toy_hash 10 scenario_list (fe 43) (fe 3)).
  - exact bn128_large.
  - reflexivity.
  - vm_compute. lia.
  - vm_compute. discriminate.
Defined.

(** The index 10, and the index -1 (the field element [bn128 - 1]), are
    rejected on the selector sum. *)
Lemma out_of_range_rejection_witness :
  Main toy_hash 10 scenario_list (fe 42) (fe 10)
    = Err (AssertFailed "HashListCheckInternal" "sumSel[n] === 1") /\
  Main toy_hash 10 scenario_list (fe 42) (fe (-1))
    = Err (AssertFailed "HashListCheckInternal" "sumSel[n] === 1").
Proof.
  split.
  - apply (out_of_range_rejection bn128_prime toy_hash 10 scenario_list (fe 42) (fe 10)).
    + exact bn128_large.
    + vm_compute. lia.
  - apply (out_of_range_rejection bn128_prime toy_hash 10 scenario_list (fe 42) (fe (-1))).
    + exact bn128_large.
    + apply Nat2Z.inj_le. unfold position. rewrite Z2Nat.id by (vm_compute; discriminate).
      vm_compute. discriminate.
Defined.

(** The witness of scenario 1 has the selector vector one-hot at 3. *)
Lemma one_hot_invariant_witness :
  length (c_sel (m_c scenario_witness)) = 10%nat /\
  (forall i, (i < 10)%nat ->
     c_sel (m_c scenario_witness) !!! i = 0%Zmod \/
     c_sel (m_c scenario_witness) !!! i = 1%Zmod) /\
  (position (m_j scenario_witness) < 10)%nat /\
  c_sel (m_c scenario_witness) !!! position (m_j scenario_witness) = 1%Zmod /\
  (forall i, (i < 10)%nat -> i <> position (m_j scenario_witness) ->
     c_sel (m_c scenario_witness) !!! i = 0%Zmod) /\
  (forall i, (i < 10)%nat -> c_sel (m_c scenario_witness) !!! i = 1%Zmod ->
     i = position (m_j scenario_witness)).
Proof.
  apply (one_hot_invariant bn128_prime toy_hash 10 scenario_witness).
  - exact bn128_large.
  - right. exists scenario_list, (fe 42), (fe 3). split; [reflexivity|].
    exact scenario_run.
Defined.

(** The selectors for the index 3 in a list of 10. *)
Lemma selector_builder_witness :
  exists sel eq,
    selectors 10 (fe 3) = Ok (sel, eq) /\
    length sel = 10%nat /\ length eq = 10%nat /\
    forall i, (i < 10)%nat ->
      IsEqual (fe 3) (const i) = Ok (eq !!! i) /\
      sel !!! i = ieq_out (eq !!! i) /\
      sel !!! i = if decide (fe 3 = const i) then 1%Zmod else 0%Zmod.
Proof. exact (selector_builder bn128_prime 10 (fe 3)). Defined.

(** The accumulator over the list of scenario 1, with the selector vector
    one-hot at 3. *)
Lemma selection_accumulator_witness :
  exists acc,
    select_hash 10 (<[3%nat := fe 1]> (replicate 10 (fe 0))) scenario_list = Ok acc /\
    acc !!! 10%nat = scenario_list !!! 3%nat.
Proof.
  destruct (proj1 (selection_accumulator 10 (<[3%nat := fe 1]> (replicate 10 (fe 0)))
                     scenario_list)) as (acc & Hrun & _ & _ & _ & Hsel).
  exists acc. split; [exact Hrun|]. apply Hsel. split; [lia|].
  intros i Hi. do 10 (destruct i as [|i]; [reflexivity|]). lia.
Defined.

(** The public output of scenario 1 is 1. *)
Lemma public_output_is_one_witness :
  m_ok scenario_witness = 1%Zmod /\ c_ok (m_c scenario_witness) = 1%Zmod.
Proof.
  apply (public_output_is_one toy_hash 10 scenario_witness).
  left. exists scenario_list, (fe 42), (fe 3). exact scenario_run.
Defined.

(** Scenario 1: the witness the run returns is what the program
    prescribes, and the run on the same inputs, written differently, returns
    it again. *)
Lemma determinism_witness :
  Main_witness toy_hash 10 scenario_list (fe 42) (fe 3) scenario_witness /\
  Main toy_hash 10 scenario_list (fe 42) (fe (42 - 39)) = Ok scenario_witness.
Proof.
  destruct (determinism bn128_prime toy_hash 10 scenario_list scenario_list
              (fe 42) (fe 42) (fe 3) (fe (42 - 39))
              bn128_large eq_refl eq_refl eq_refl eq_refl) as (Hrun & _ & Hsame).
  pose proof (Hrun scenario_witness scenario_run) as Hw.
  split; [exact Hw | exact (Hsame _ Hw)].
Defined.

(** Scenario 4: an others file with 8 hashes, a list of 9 with the
    secret's, is refused. *)
Lemma shape_enforcement_witness :
  get_input_with_others_main toy_hash toy_BigInt toy_readFileSync
    toy_JSON_parse (fun s => s) toy_String_of_json "other_hashs.json"
    (Some "42") (Some "short.json")
  = ([], Thrown ShapeMismatch).
Proof.
  apply (proj1 (shape_enforcement toy_hash toy_BigInt toy_readFileSync toy_JSON_parse
                  (fun s => s) toy_String_of_json "other_hashs.json"
                  (Some "42") (Some "short.json"))
           "eight" (JArray (replicate 8 (JString "1")))).
  - discriminate.
  - reflexivity.
  - discriminate.
  - discriminate.
  - reflexivity.
  - intros items [= <-]. discriminate.
Defined.

(** [node get_input.js 42 10] and [node get_input.js 42 -1]. *)
Lemma get_input_range_check_witness :
  get_input_main toy_hash toy_BigInt (Some "42") (Some "10")
    = ([], Thrown (Error "j must be 0–9")) /\
  get_input_main toy_hash toy_BigInt (Some "42") (Some "-1")
    = ([], Thrown (Error "j must be 0–9")).
Proof.
  split.
  - apply (get_input_range_check toy_hash toy_BigInt (Some "42") (Some "10") 10).
    + reflexivity.
    + right. lia.
  - apply (get_input_range_check toy_hash toy_BigInt (Some "42") (Some "-1") (-1)).
    + reflexivity.
    + left. lia.
Defined.

(** Scenario 2: [secret = 42, index = 4] is rejected. *)
Example scenario_2 :
  Main toy_hash 10 scenario_list (fe 42) (fe 4)
    = Err (AssertFailed "HashListCheckInternal" "hr === selectedHash[n]").
Proof. vm_compute. reflexivity. Qed.

(** Scenario 5: the list the second script builds, 9 hashes of the file and
    the secret's hash at position 9, is accepted with index 9. *)
Example scenario_5 :
  get_input_with_others toy_hash toy_BigInt toy_readFileSync
    toy_JSON_parse (fun s => s) toy_String_of_json "other_hashs.json"
    (Some "42") None
  = ([buildPoseidon; poseidon [42];
      console_log {| input_r := "42"; input_j := "9";
                     input_hashes := replicate 9 "1" ++ ["130691239"] |}], 0) /\
  match Main toy_hash 10 (replicate 9 (fe 1) ++ [fe 130691239]) (fe 42) (fe 9) with
  | Ok w => Zmod.to_Z (m_ok w) = 1
  | Err _ => False
  end.
Proof. split; vm_compute; reflexivity. Qed.

(** An index argument that is not a number passes the range test of
    [get_input.js]: [NaN < 0] and [NaN > 9] are both false. *)
Example get_input_NaN :
  get_input toy_hash toy_BigInt (Some "42") (Some "x")
  = ([buildPoseidon; poseidon [42];
      console_log {| input_r := "42"; input_j := "NaN";
                     input_hashes := replicate 10 "0" |}], 0).
Proof. vm_compute. reflexivity. Qed.

(** ** The further properties, run *)

Lemma scenario_satisfied : Main_satisfied toy_hash 10 scenario_witness = true.
Proof.
  exact (Main_Ok_satisfied bn128_prime toy_hash 10 scenario_list (fe 42) (fe 3)
           scenario_witness bn128_large eq_refl scenario_run).
Qed.

(** [node get_input.js 42 3] *)
Lemma get_input_builds_list_witness :
  exists i,
    get_input toy_hash toy_BigInt (Some "42") (Some "3")
      = ([buildPoseidon; poseidon [42]; console_log i], 0) /\
    input_r i = "42" /\ input_j i = "3" /\ parseInt (input_j i) = Some 3 /\
    length (input_hashes i) = 10%nat /\
    input_hashes i !!! 3%nat = pretty (Zmod.to_Z (toy_hash [fe 42])) /\
    forall k, (k < 10)%nat -> k <> 3%nat -> input_hashes i !!! k = "0".
Proof.
  apply (get_input_builds_list toy_hash toy_BigInt (Some "42") (Some "3") 3 42).
  - reflexivity.
  - lia.
  - reflexivity.
Defined.

(** [node get_input.js 42 three] *)
Lemma get_input_not_a_number_witness :
  get_input toy_hash toy_BigInt (Some "42") (Some "three")
    = ([buildPoseidon; poseidon [42];
        console_log {| input_r := "42"; input_j := "NaN";
                       input_hashes := replicate 10 "0" |}], 0).
Proof.
  apply (get_input_not_a_number toy_hash toy_BigInt (Some "42") (Some "three") 42);
    reflexivity.
Defined.

(** [parseInt] skips white space outside ASCII as well: a no-break space
    (U+00A0), a byte order mark (U+FEFF), a line separator (U+2028) or an
    ideographic space (U+3000) before the digit leaves the index 5. *)
Example parseInt_white_space :
  parseInt (String (ascii_of_nat 194) (String (ascii_of_nat 160) "5")) = Some 5 /\
  parseInt (String (ascii_of_nat 239) (String (ascii_of_nat 187)
             (String (ascii_of_nat 191) " 5"))) = Some 5 /\
  parseInt (String (ascii_of_nat 226) (String (ascii_of_nat 128)
             (String (ascii_of_nat 168) "5"))) = Some 5 /\
  parseInt (String (ascii_of_nat 227) (String (ascii_of_nat 128)
             (String (ascii_of_nat 128) "-5x"))) = Some (-5) /\
  parseInt (String (ascii_of_nat 194) "5") = NaN.
Proof. repeat split; reflexivity. Qed.

(** An others file that holds nothing. *)
Lemma get_input_with_others_blank_file_witness :
  get_input_with_others toy_hash toy_BigInt (fun _ => Some "") toy_JSON_parse
    (fun s => s) toy_String_of_json "other_hashs.json" (Some "42") None
  = ([console_error (Error "Empty or missing file: other_hashs.json")], 1).
Proof.
  apply (proj1 (get_input_with_others_blank_file toy_hash toy_BigInt
                  (fun _ => Some "") toy_JSON_parse (fun s => s)
                  toy_String_of_json "other_hashs.json" (Some "42") None
                  ltac:(discriminate))).
  exists "". split; [reflexivity | left; reflexivity].
Defined.

(** [node get_hash.js 42], [node get_input.js 42 3] and
    [node get_input_with_others.js 42]. *)
Lemma get_hash_consistent_witness :
  (exists i,
     In (console_log i) (get_input toy_hash toy_BigInt (Some "42") (Some "3")).1 /\
     input_r i = "42" /\ input_hashes i !!! 3%nat = "130691239") /\
  (forall log out i,
     get_input_with_others_main toy_hash toy_BigInt toy_readFileSync
       toy_JSON_parse (fun s => s) toy_String_of_json "other_hashs.json"
       (Some "42") None = (log, out) ->
     In (console_log i) log ->
     input_r i = "42" /\ input_hashes i !!! 9%nat = "130691239").
Proof.
  destruct (get_hash_consistent toy_hash toy_BigInt toy_readFileSync
              toy_JSON_parse (fun s => s) toy_String_of_json "other_hashs.json"
              (Some "42")
              {| GetHash.secret := "42"; GetHash.knownHash := "130691239" |})
    as (_ & Hinput & Hothers).
  - vm_compute. right. right. left. reflexivity.
  - split; [|exact (Hothers None)].
    apply (Hinput (Some "3") 3); [reflexivity | lia].
Defined.

(** Scenario 1 is accepted, and is satisfiable. *)
Lemma Main_succeeds_iff_satisfiable_witness :
  ((exists w, Main toy_hash 10 scenario_list (fe 42) (fe 3) = Ok w) <->
   (position (fe 3) < 10)%nat /\
   toy_hash [fe 42] = scenario_list !!! position (fe 3)) /\
  ((exists w, Main toy_hash 10 scenario_list (fe 42) (fe 3) = Ok w) <->
   exists w, Main_satisfied toy_hash 10 w = true /\
             m_hashes w = scenario_list /\ m_r w = fe 42 /\ m_j w = fe 3).
Proof.
  apply (Main_succeeds_iff_satisfiable bn128_prime toy_hash 10 scenario_list
           (fe 42) (fe 3)).
  - exact bn128_large.
  - reflexivity.
Defined.

(** The running sums of scenario 1 at [k = 3] and at [k = 4]. *)
Lemma running_sums_step_witness :
  (c_sumSel (m_c scenario_witness) !!! 3%nat = 0%Zmod /\
   c_selectedHash (m_c scenario_witness) !!! 3%nat = 0%Zmod) /\
  (c_sumSel (m_c scenario_witness) !!! 4%nat = 1%Zmod /\
   c_selectedHash (m_c scenario_witness) !!! 4%nat = toy_hash [fe 42]).
Proof.
  split.
  - exact (running_sums_step bn128_prime toy_hash 10 scenario_witness
             bn128_large scenario_satisfied 3%nat ltac:(lia)).
  - exact (running_sums_step bn128_prime toy_hash 10 scenario_witness
             bn128_large scenario_satisfied 4%nat ltac:(lia)).
Defined.

(** The witness of scenario 1 with the hint at position 3 set to 7. *)
Lemma inverse_hint_free_witness :
  Main_satisfied toy_hash 10 (set_inverse_hint 3 (fe 7) scenario_witness) = true.
Proof.
  exact (proj1 (inverse_hint_free bn128_prime toy_hash 10 scenario_witness (fe 7)
                  bn128_large scenario_satisfied)).
Defined.

(** [node get_input.js 42 3], then the circuit. *)
Lemma get_input_accepted_witness :
  exists i hashes w,
    In (console_log i) (get_input toy_hash toy_BigInt (Some "42") (Some "3")).1 /\
    toy_BigInt (input_r i) = Some 42 /\
    input_j i = "3" /\
    input_hashes i = (fun h => pretty (Zmod.to_Z h)) <$> hashes /\
    main toy_hash hashes (fe 42) (fe 3) = Ok w /\
    Main_satisfied toy_hash 10 w = true /\ m_ok w = 1%Zmod.
Proof.
  apply (get_input_accepted bn128_prime ltac:(vm_compute; discriminate)
           toy_hash toy_BigInt (Some "42") (Some "3") 3 42).
  - reflexivity.
  - lia.
  - reflexivity.
Defined.

(** Scenario 5: [node get_input_with_others.js 42], then the circuit on the
    nine entries of the file read as 1. *)
Lemma get_input_with_others_accepted_witness :
  exists w,
    main toy_hash (replicate 9 (fe 1) ++ [toy_hash [fe 42]]) (fe 42) (fe 9) = Ok w /\
    Main_satisfied toy_hash 10 w = true /\ m_ok w = 1%Zmod.
Proof.
  destruct (get_input_with_others_accepted bn128_prime
              ltac:(vm_compute; discriminate) toy_hash toy_BigInt
              toy_readFileSync toy_JSON_parse (fun s => s) toy_String_of_json
              "other_hashs.json" (Some "42") None
              [buildPoseidon; poseidon [42];
               console_log {| input_r := "42"; input_j := "9";
                              input_hashes := replicate 9 "1" ++ ["130691239"] |}]
              (Returned tt)
              {| input_r := "42"; input_j := "9";
                 input_hashes := replicate 9 "1" ++ ["130691239"] |})
    as (x & Hx & _ & _ & _ & Hmain).
  - vm_compute. reflexivity.
  - right. right. left. reflexivity.
  - injection Hx as <-. apply (Hmain (replicate 9 (fe 1))). reflexivity.
Defined.

(** [./prove.sh 42 10]: the witness generator is run on an empty file. *)
Lemma prove_sh_runs_witness_generator_witness :
  In (node_generate_witness [])
     (prove_sh toy_hash toy_BigInt (fun _ => 1) (fun _ => 0) "[]"
        (Some "42") (Some "10")).1.
Proof.
  apply (proj2 (prove_sh_runs_witness_generator toy_hash toy_BigInt
                  (fun _ => 1) (fun _ => 0) "[]" (Some "42") (Some "10")) 10).
  - reflexivity.
  - right. lia.
Defined.

(** [./prove_with_list.sh 42 short.json] stops at the input builder, and
    [./prove_with_list.sh 42] runs the generator on the one input built. *)
Lemma prove_with_list_sh_guard_witness :
  prove_with_list_sh toy_hash toy_BigInt toy_readFileSync toy_JSON_parse
    (fun s => s) toy_String_of_json "other_hashs.json" (fun _ => 0) (fun _ => 0)
    (Some "42") (Some "short.json")
  = ([echo "Building input: 9 hashes from short.json + Poseidon(secret) at index 9...";
      node_get_input_with_others "42" "short.json"], 1) /\
  In (node_generate_witness
        [{| input_r := "42"; input_j := "9";
            input_hashes := replicate 9 "1" ++ ["130691239"] |}])
     (prove_with_list_sh toy_hash toy_BigInt toy_readFileSync toy_JSON_parse
        (fun s => s) toy_String_of_json "other_hashs.json" (fun _ => 0)
        (fun _ => 0) (Some "42") None).1.
Proof.
  split.
  - apply (proj1 (proj2 (prove_with_list_sh_guard toy_hash toy_BigInt
                           toy_readFileSync toy_JSON_parse (fun s => s)
                           toy_String_of_json "other_hashs.json"
                           (fun _ => 0) (fun _ => 0)
                           (Some "42") (Some "short.json")))).
    + discriminate.
    + vm_compute. discriminate.
  - apply (proj1 (proj2 (proj2 (prove_with_list_sh_guard toy_hash toy_BigInt
                           toy_readFileSync toy_JSON_parse (fun s => s)
                           toy_String_of_json "other_hashs.json"
                           (fun _ => 0) (fun _ => 0) (Some "42") None)))).
    + discriminate.
    + vm_compute. reflexivity.
Defined.
